(** * packio: the JSON stream framer and the client call table

    A shallow embedding of
      - [include/packio/nl_json_rpc/incremental_buffers.h]
        (class [incremental_buffers], the bracket-depth framer), and
      - [include/packio/client.h] (class [client], the call table with
        its timers and completion handlers),
    followed by the properties established for them. *)

From stdpp Require Import base numbers list strings gmap.
From Stdlib Require Import ZArith Lia Ascii.

(** ** Machine integers *)

(** [std::size_t] is taken to be 64 bits wide; arithmetic on it wraps. *)
Definition SIZE_MAX : Z := 2 ^ 64 - 1.
Definition size_t (z : Z) : Z := z mod 2 ^ 64.

(** [std::string::npos] / [std::string_view::npos]. *)
Definition npos : Z := SIZE_MAX.

(** ** Characters and strings *)

(** A [std::string] is the list of its bytes. *)
Abbreviation bytes := (list ascii).

Definition NUL : ascii := "000"%char.
Definition quote : ascii := "034"%char.
Definition backslash : ascii := "092"%char.
Definition lbrace : ascii := "{"%char.
Definition rbrace : ascii := "}"%char.
Definition lbracket : ascii := "["%char.
Definition rbracket : ascii := "]"%char.

(** The bytes of a string literal. *)
Definition text (s : string) : bytes := String.list_ascii_of_string s.

Definition newline : ascii := "010"%char.

(** [s[i]], for an index inside the string. *)
Definition char_at (s : bytes) (i : nat) : ascii := nth i s NUL.

(** [s.find_first_of(chars, pos)]: the first index at or after [pos]
    holding one of [chars], [npos] when there is none. *)
Definition find_first_of (s : bytes) (chars : bytes) (pos : Z) : Z :=
  match list_find (λ c, c ∈ chars) (drop (Z.to_nat pos) s) with
  | Some (k, _) => pos + Z.of_nat k
  | None => npos
  end.

(** [s.resize(n)]: truncate, or pad with NUL characters. *)
Definition resize (s : bytes) (n : nat) : bytes :=
  take n s ++ replicate (n - length s) NUL.

(** [std::copy(begin(data), end(data), s.data() + off)]. *)
Definition copy_at (s : bytes) (off : nat) (data : bytes) : bytes :=
  take off s ++ data ++ drop (off + length data) s.

Module IncrementalBuffers.

(** The members of [incremental_buffers].  The string view [buffer_]
    always points at [raw_buffer_.data()] when its characters are read,
    so it is represented by its length [buffer_len]; [buffer_] below
    gives its contents.  [depth_] is an [int]; it moves by one per
    token, and the overflow of a signed integer, undefined in the
    source, is outside the model. *)
Record incremental_buffers := {
  in_string_ : bool;
  depth_ : Z;
  first_char_ : ascii;
  last_char_ : ascii;
  tokens_ : bytes;
  buffer_len : nat;
  raw_buffer_ : bytes;
  serialized_objects_ : list bytes
}.

Definition buffer_ (s : incremental_buffers) : bytes :=
  take (buffer_len s) (raw_buffer_ s).

(** A default-constructed object.  The five scalar members have no
    initialiser in the class; they are read only after [initialize] has
    assigned them, so any value will do here. *)
Definition empty : incremental_buffers :=
  {| in_string_ := false; depth_ := 0; first_char_ := NUL; last_char_ := NUL;
     tokens_ := []; buffer_len := 0; raw_buffer_ := [];
     serialized_objects_ := [] |}.

(** *** The public queue interface *)

Definition available_buffers (s : incremental_buffers) : nat :=
  length (serialized_objects_ s).

Definition get_parsed_buffer (s : incremental_buffers)
  : option bytes * incremental_buffers :=
  match serialized_objects_ s with
  | [] => (None, s)
  | buffer :: rest =>
      (Some buffer,
       {| in_string_ := in_string_ s; depth_ := depth_ s;
          first_char_ := first_char_ s; last_char_ := last_char_ s;
          tokens_ := tokens_ s; buffer_len := buffer_len s;
          raw_buffer_ := raw_buffer_ s; serialized_objects_ := rest |})
  end.

(** *** The in-place buffer *)

Definition in_place_buffer_capacity (s : incremental_buffers) : nat :=
  length (raw_buffer_ s) - buffer_len s.

Definition set_raw_buffer (raw : bytes) (s : incremental_buffers) :=
  {| in_string_ := in_string_ s; depth_ := depth_ s;
     first_char_ := first_char_ s; last_char_ := last_char_ s;
     tokens_ := tokens_ s; buffer_len := buffer_len s;
     raw_buffer_ := raw; serialized_objects_ := serialized_objects_ s |}.

Definition reserve_in_place_buffer (s : incremental_buffers) (n : nat) :=
  if decide (n ≤ in_place_buffer_capacity s) then s
  else set_raw_buffer (resize (raw_buffer_ s) (buffer_len s + n)) s.

(** *** The scanner *)

(** [is_escaped]: walk backwards from [pos] over backslashes,
    flipping [escaped] at each one. *)
Fixpoint is_escaped_from (buf : bytes) (pos : nat) (escaped : bool) : bool :=
  match pos with
  | O => escaped
  | S pos' =>
      if Ascii.eqb (char_at buf pos') backslash
      then is_escaped_from buf pos' (negb escaped)
      else escaped
  end.

Definition is_escaped (s : incremental_buffers) (pos : nat) : bool :=
  is_escaped_from (buffer_ s) pos false.

Definition set_in_string (b : bool) (s : incremental_buffers) :=
  {| in_string_ := b; depth_ := depth_ s;
     first_char_ := first_char_ s; last_char_ := last_char_ s;
     tokens_ := tokens_ s; buffer_len := buffer_len s;
     raw_buffer_ := raw_buffer_ s;
     serialized_objects_ := serialized_objects_ s |}.

Definition set_depth (d : Z) (s : incremental_buffers) :=
  {| in_string_ := in_string_ s; depth_ := d;
     first_char_ := first_char_ s; last_char_ := last_char_ s;
     tokens_ := tokens_ s; buffer_len := buffer_len s;
     raw_buffer_ := raw_buffer_ s;
     serialized_objects_ := serialized_objects_ s |}.

(** The block under the comment [found objet]: the first [buffer_size] bytes of
    [raw_buffer_] are pushed on the queue, the rest becomes the new
    [raw_buffer_], and the view keeps the bytes that were left. *)
Definition store_object (buffer_size : nat) (s : incremental_buffers) :=
  let new_raw_buffer := drop buffer_size (raw_buffer_ s) in
  let object := resize (raw_buffer_ s) buffer_size in
  let bytes_left := buffer_len s - buffer_size in
  {| in_string_ := in_string_ s; depth_ := 0;
     first_char_ := first_char_ s; last_char_ := last_char_ s;
     tokens_ := tokens_ s; buffer_len := bytes_left;
     raw_buffer_ := new_raw_buffer;
     serialized_objects_ := serialized_objects_ s ++ [object] |}.

Inductive step_result :=
| Break
| Continue (s : incremental_buffers) (token_pos : Z)
| AssertFailed.

Section Scanner.

(** Whether the translation unit is compiled with [NDEBUG], in which
    case [assert] expands to nothing. *)
Variable NDEBUG : bool.

(** [initialize(first_char)]; [None] when the assertion of the [else]
    branch fails. *)
Definition initialize (first_char : ascii) (s : incremental_buffers)
  : option incremental_buffers :=
  let init (last_char : ascii) (tokens : bytes) :=
    {| in_string_ := false; depth_ := 1;
       first_char_ := first_char; last_char_ := last_char;
       tokens_ := tokens; buffer_len := buffer_len s;
       raw_buffer_ := raw_buffer_ s;
       serialized_objects_ := serialized_objects_ s |} in
  if Ascii.eqb first_char lbrace
  then Some (init rbrace [lbrace; rbrace; quote])
  else if Ascii.eqb first_char lbracket || NDEBUG
       then Some (init rbracket [lbracket; rbracket; quote])
       else None.

(** One iteration of the [while (true)] loop of [incremental_parse]. *)
Definition parse_step (s : incremental_buffers) (token_pos : Z) : step_result :=
  let token_pos := find_first_of (buffer_ s) (tokens_ s) (size_t (token_pos + 1)) in
  if (token_pos =? npos)%Z then Break
  else
    let token := char_at (buffer_ s) (Z.to_nat token_pos) in
    if Ascii.eqb token quote && negb (is_escaped s (Z.to_nat token_pos))
    then Continue (set_in_string (negb (in_string_ s)) s) token_pos
    else if in_string_ s then Continue s token_pos
    else if Ascii.eqb token (last_char_ s) then
      let depth := (depth_ s - 1)%Z in
      if (depth =? 0)%Z then
        let buffer_size := (token_pos + 1)%Z in
        Continue (store_object (Z.to_nat buffer_size) s)
                 (size_t (token_pos - buffer_size))
      else Continue (set_depth depth s) token_pos
    else if Ascii.eqb token (first_char_ s) || NDEBUG
    then Continue (set_depth (depth_ s + 1) s) token_pos
    else AssertFailed.

Inductive outcome :=
| Done (s : incremental_buffers)
| Aborted
| OutOfFuel.

(** The loop itself; [fuel] bounds the number of iterations. *)
Fixpoint parse_loop (fuel : nat) (s : incremental_buffers) (token_pos : Z) : outcome :=
  match fuel with
  | O => OutOfFuel
  | S fuel' =>
      match parse_step s token_pos with
      | Break => Done s
      | Continue s' token_pos' => parse_loop fuel' s' token_pos'
      | AssertFailed => Aborted
      end
  end.

Definition set_buffer_len (n : nat) (s : incremental_buffers) :=
  {| in_string_ := in_string_ s; depth_ := depth_ s;
     first_char_ := first_char_ s; last_char_ := last_char_ s;
     tokens_ := tokens_ s; buffer_len := n;
     raw_buffer_ := raw_buffer_ s;
     serialized_objects_ := serialized_objects_ s |}.

(** [incremental_parse(bytes)].  Every iteration moves the scan
    position forward inside the view or shortens the view, so
    [buffer_len + bytes + 1] iterations are always enough
    (see [parse_loop_total]). *)
Definition incremental_parse (s : incremental_buffers) (n : nat) : outcome :=
  let start (s : incremental_buffers) :=
    let token_pos := Z.of_nat (buffer_len s) in
    let s' := set_buffer_len (buffer_len s + n) s in
    parse_loop (S (buffer_len s')) s' token_pos in
  if decide (buffer_len s = 0) then
    let new_data := take n (drop (buffer_len s) (raw_buffer_ s)) in
    let first_pos := find_first_of new_data [lbrace; lbracket] 0 in
    if (first_pos =? npos)%Z then Done s
    else
      match initialize (char_at new_data (Z.to_nat first_pos)) s with
      | Some s' => start s'
      | None => Aborted
      end
  else start s.

Definition in_place_buffer_consumed (s : incremental_buffers) (n : nat) : outcome :=
  if decide (n = 0) then Done s else incremental_parse s n.

Definition feed (s : incremental_buffers) (data : bytes) : outcome :=
  let s := reserve_in_place_buffer s (length data) in
  let s := set_raw_buffer (copy_at (raw_buffer_ s) (buffer_len s) data) s in
  in_place_buffer_consumed s (length data).

(** Feeding a stream chunk by chunk. *)
Fixpoint feed_all (s : incremental_buffers) (chunks : list bytes) : outcome :=
  match chunks with
  | [] => Done s
  | data :: rest =>
      match feed s data with
      | Done s' => feed_all s' rest
      | o => o
      end
  end.

End Scanner.

(** *** Notions used to state the properties *)

(** The bytes still in front of the scanner. *)
Definition to_scan (s : incremental_buffers) (token_pos : Z) : nat :=
  Z.to_nat (Z.of_nat (buffer_len s) - size_t (token_pos + 1)).

(** The number of consecutive backslashes that end just before [pos]. *)
Fixpoint backslashes_before (buf : bytes) (pos : nat) : nat :=
  match pos with
  | O => 0
  | S pos' =>
      if Ascii.eqb (char_at buf pos') backslash
      then S (backslashes_before buf pos')
      else 0
  end.

(** Calling [get_parsed_buffer] up to [n] times, until it returns
    [nullopt]; the buffers obtained, in the order of the calls. *)
Fixpoint drain (n : nat) (s : incremental_buffers) : list bytes :=
  match n with
  | O => []
  | S n' =>
      match get_parsed_buffer s with
      | (Some buffer, s') => buffer :: drain n' s'
      | (None, _) => []
      end
  end.

(** *** Notions used by the further properties *)

Definition openers : bytes := [lbrace; lbracket].

(** The view lies inside [raw_buffer_]. *)
Definition well_formed (s : incremental_buffers) : Prop :=
  buffer_len s ≤ length (raw_buffer_ s).

(** The three members set by [initialize] hold one of its two
    settings. *)
Definition initialized (s : incremental_buffers) : Prop :=
  (first_char_ s = lbrace ∧ last_char_ s = rbrace
   ∧ tokens_ s = [lbrace; rbrace; quote])
  ∨ (first_char_ s = lbracket ∧ last_char_ s = rbracket
     ∧ tokens_ s = [lbracket; rbracket; quote]).

(** What holds of the object between two calls of its public
    functions: the view lies inside the storage, and a view that is not
    empty has been through [initialize]. *)
Definition scanner_inv (s : incremental_buffers) : Prop :=
  well_formed s ∧ (buffer_len s ≠ 0 → initialized s).

Definition set_queue (q : list bytes) (s : incremental_buffers) :=
  {| in_string_ := in_string_ s; depth_ := depth_ s;
     first_char_ := first_char_ s; last_char_ := last_char_ s;
     tokens_ := tokens_ s; buffer_len := buffer_len s;
     raw_buffer_ := raw_buffer_ s; serialized_objects_ := q |}.

(** The body of the loop behind the [break], for the token found at
    [p]. *)
Definition token_action (NDEBUG : bool) (s : incremental_buffers) (p : nat)
  : step_result :=
  let token := char_at (buffer_ s) p in
  if Ascii.eqb token quote && negb (is_escaped s p)
  then Continue (set_in_string (negb (in_string_ s)) s) (Z.of_nat p)
  else if in_string_ s then Continue s (Z.of_nat p)
  else if Ascii.eqb token (last_char_ s) then
    if (depth_ s - 1 =? 0)%Z
    then Continue (store_object (S p) s) (size_t (-1))
    else Continue (set_depth (depth_ s - 1) s) (Z.of_nat p)
  else if Ascii.eqb token (first_char_ s) || NDEBUG
  then Continue (set_depth (depth_ s + 1) s) (Z.of_nat p)
  else AssertFailed.

(** A forward pass over bytes that carries, besides [in_string_] and
    [depth_], the parity of the run of backslashes it has just read.
    [None] stands for a byte at which the loop would store an object or
    fail its assertion. *)
Definition scan_byte (NDEBUG : bool) (first last : ascii) (toks : bytes)
    (st : bool * bool * Z) (c : ascii) : option (bool * bool * Z) :=
  let '(esc, ins, d) := st in
  let esc' := if Ascii.eqb c backslash then negb esc else false in
  if bool_decide (c ∈ toks) then
    if Ascii.eqb c quote && negb esc then Some (esc', negb ins, d)
    else if ins then Some (esc', ins, d)
    else if Ascii.eqb c last then
      if (d - 1 =? 0)%Z then None else Some (esc', ins, (d - 1)%Z)
    else if Ascii.eqb c first || NDEBUG then Some (esc', ins, (d + 1)%Z)
    else None
  else Some (esc', ins, d).

Fixpoint scan (NDEBUG : bool) (first last : ascii) (toks : bytes)
    (st : bool * bool * Z) (l : bytes) : option (bool * bool * Z) :=
  match l with
  | [] => Some st
  | c :: l' =>
      match scan_byte NDEBUG first last toks st c with
      | Some st' => scan NDEBUG first last toks st' l'
      | None => None
      end
  end.

(** Texts with matched brackets and proper strings.  A string is a
    quote, then characters other than quote and backslash or pairs of a
    backslash and any character, then a quote.  A text is made of
    strings, of bracketed lists of texts, and of single characters that
    are neither brackets, quotes nor backslashes.  Every JSON object or
    array is such a text. *)
Inductive item :=
| Plain (c : ascii)
| Escape (c : ascii).

Definition encode_item (i : item) : bytes :=
  match i with
  | Plain c => [c]
  | Escape c => [backslash; c]
  end.

Definition item_ok (i : item) : Prop :=
  match i with
  | Plain c => c ≠ quote ∧ c ≠ backslash
  | Escape _ => True
  end.

#[local] Unset Elimination Schemes.
Inductive node :=
| Filler (c : ascii)
| Str (body : list item)
| Braces (inner : list node)
| Brackets (inner : list node).
#[local] Set Elimination Schemes.

Fixpoint encode (n : node) : bytes :=
  let encode_all :=
    fix encode_all (l : list node) : bytes :=
      match l with
      | [] => []
      | n' :: l' => encode n' ++ encode_all l'
      end in
  match n with
  | Filler c => [c]
  | Str body => quote :: concat (map encode_item body) ++ [quote]
  | Braces inner => lbrace :: encode_all inner ++ [rbrace]
  | Brackets inner => lbracket :: encode_all inner ++ [rbracket]
  end.

Fixpoint encode_all (l : list node) : bytes :=
  match l with
  | [] => []
  | n :: l' => encode n ++ encode_all l'
  end.

Fixpoint valid (n : node) : Prop :=
  let valid_all :=
    fix valid_all (l : list node) : Prop :=
      match l with
      | [] => True
      | n' :: l' => valid n' ∧ valid_all l'
      end in
  match n with
  | Filler c => c ∉ [lbrace; rbrace; lbracket; rbracket; quote; backslash]
  | Str body => Forall item_ok body
  | Braces inner => valid_all inner
  | Brackets inner => valid_all inner
  end.

Fixpoint valid_all (l : list node) : Prop :=
  match l with
  | [] => True
  | n :: l' => valid n ∧ valid_all l'
  end.

(** A message: a text in braces or in brackets. *)
Definition is_message (n : node) : Prop :=
  match n with
  | Braces _ | Brackets _ => valid n
  | _ => False
  end.

(** The chunks of a stream in which every message arrives whole and in
    a chunk of its own, with chunks of separators in between. *)
Inductive chunk :=
| Message (n : node)
| Separator (ws : bytes).

Definition chunk_bytes (ch : chunk) : bytes :=
  match ch with
  | Message n => encode n
  | Separator ws => ws
  end.

Definition chunk_ok (ch : chunk) : Prop :=
  match ch with
  | Message n => is_message n
  | Separator ws => Forall (λ c, c ∉ openers) ws
  end.

Definition messages_of (chunks : list chunk) : list bytes :=
  omap (λ ch, match ch with Message n => Some (encode n) | Separator _ => None end)
    chunks.

(** *** States used in examples *)

(** The scanner inside a message whose only string holds a closing
    brace, just behind the opening quote at 1. *)
Definition in_braces_string : incremental_buffers :=
  {| in_string_ := true; depth_ := 1; first_char_ := lbrace; last_char_ := rbrace;
     tokens_ := [lbrace; rbrace; quote]; buffer_len := 5;
     raw_buffer_ := [lbrace; quote; rbrace; quote; rbrace];
     serialized_objects_ := [] |}.

(** The scanner at the start of a message whose string begins with an
    escaped quote (at 3, behind the backslash at 2). *)
Definition before_escaped_quote (in_string : bool) : incremental_buffers :=
  {| in_string_ := in_string; depth_ := 1; first_char_ := lbrace; last_char_ := rbrace;
     tokens_ := [lbrace; rbrace; quote]; buffer_len := 6;
     raw_buffer_ := [lbrace; quote; backslash; quote; quote; rbrace];
     serialized_objects_ := [] |}.

End IncrementalBuffers.

Module Client.

(** *** Values of the packed dialect *)

(** [msgpack::object], by its [type] tag.  The floating-point and
    extension tags are left out: the client only looks at the tag, at
    integers and at the elements of arrays.  A [POSITIVE_INTEGER] holds
    an unsigned and a [NEGATIVE_INTEGER] a negative 64-bit value. *)
#[local] Unset Elimination Schemes.
Inductive object :=
| NIL
| BOOLEAN (b : bool)
| POSITIVE_INTEGER (u : Z)
| NEGATIVE_INTEGER (i : Z)
| STR (s : string)
| BIN (b : bytes)
| ARRAY (ptr : list object)
| MAP (kv : list (object * object)).
#[local] Set Elimination Schemes.

Definition is_nil (o : object) : bool :=
  match o with NIL => true | _ => false end.

Definition INT_MAX : Z := 2 ^ 31 - 1.
Definition INT_MIN : Z := - 2 ^ 31.

(** [o.as<int>()] of the msgpack library: the integer when it fits an
    [int]; [None] stands for the [msgpack::type_error] it throws. *)
Definition as_int (o : object) : option Z :=
  match o with
  | POSITIVE_INTEGER u => if (u <=? INT_MAX)%Z then Some u else None
  | NEGATIVE_INTEGER i => if (INT_MIN <=? i)%Z then Some i else None
  | _ => None
  end.

(** Conversions between [uint32_t] and [int]. *)
Definition to_uint32 (z : Z) : Z := z mod 2 ^ 32.
Definition to_int (z : Z) : Z := (z + 2 ^ 31) mod 2 ^ 32 - 2 ^ 31.

(** Modelled from the spec: [internal/msgpack_rpc.h] is not among the
    sources; the spec gives the tags of the packed dialect as
    0 = request, 1 = response, 2 = notification. *)
Inductive msgpack_rpc_type := request | response | notification.

Definition rpc_tag (t : msgpack_rpc_type) : Z :=
  match t with request => 0 | response => 1 | notification => 2 end.

(** *** Error codes *)

(** Modelled from the spec: [error_code.h] is not among the sources; the
    spec lists the codes surfaced to user callbacks as Success, Timeout,
    CallError, WriteError and BadMessage.  [client.h] itself names
    [error::success], [error::timeout] and [error::call_error]. *)
Inductive error := success | timeout | call_error | write_error | bad_message.

(** [boost::system::error_code]: a code made by [make_error_code] from
    packio's enumeration, or a code of the transport. *)
Inductive error_code :=
| packio_error (e : error)
| system_error (value : Z).

Definition make_error_code (e : error) : error_code := packio_error e.

(** [if (ec)]: an error code is true when its value is not zero. *)
Definition is_error (ec : error_code) : bool :=
  match ec with
  | packio_error success => false
  | packio_error _ => true
  | system_error v => negb (v =? 0)%Z
  end.

(** [boost::asio::error::operation_aborted] ([ECANCELED]). *)
Definition operation_aborted : error_code := system_error 125.

Definition is_operation_aborted (ec : error_code) : bool :=
  match ec with
  | system_error v => (v =? 125)%Z
  | packio_error _ => false
  end.

(** *** The call table *)

(** A user completion ([async_call_handler_type]) is known by a name;
    calling it is recorded as an [Invoke] effect. *)
Definition async_call_handler_type := nat.

(** [timer_type]: what matters of a timer is whether a wait is
    outstanding on it. *)
Record timer_type := { waiting : bool }.

Abbreviation entry := (async_call_handler_type * timer_type)%type.

(** What the client does to its collaborators: the user completions,
    the timers, the socket. *)
Inductive effect :=
| Invoke (handler : async_call_handler_type) (ec : error_code) (result : object)
| TimerExpiresAfter (id : Z) (d : Z)
| TimerAsyncWait (id : Z)
| TimerCancel (id : Z)
| SetNoDelay
| AsyncRead
| AsyncWrite (id : Z) (packer_buf : object)
| SocketCancel
| SocketShutdown
| SocketClose.

Record client := {
  pending_ : gmap Z entry;
  timeout_ : Z;
  id_ : Z;
  reading_ : bool;
  effects : list effect
}.

(** The state after construction: [timeout_{0}], [id_{0}],
    [reading_.clear()]. *)
Definition new_client : client :=
  {| pending_ := ∅; timeout_ := 0; id_ := 0; reading_ := false; effects := [] |}.

Definition set_pending (p : gmap Z entry) (c : client) : client :=
  {| pending_ := p; timeout_ := timeout_ c; id_ := id_ c;
     reading_ := reading_ c; effects := effects c |}.

Definition emit (es : list effect) (c : client) : client :=
  {| pending_ := pending_ c; timeout_ := timeout_ c; id_ := id_ c;
     reading_ := reading_ c; effects := effects c ++ es |}.

Definition set_timeout (timeout : Z) (c : client) : client :=
  {| pending_ := pending_ c; timeout_ := timeout; id_ := id_ c;
     reading_ := reading_ c; effects := effects c |}.

Definition get_timeout (c : client) : Z := timeout_ c.

(** A thrown exception leaves the callback. *)
Inductive result :=
| Ok (c : client)
| Throw.

Section Messages.

(** [ec.message()], defined by [error_code.h] for packio's codes and by
    the system for the transport's. *)
Variable message : error_code → string.

Definition close_connection (c : client) : client :=
  emit [SocketCancel; SocketShutdown; SocketClose] c.

Definition maybe_start_reading (c : client) : client :=
  if reading_ c then c
  else emit [SetNoDelay; AsyncRead]
         {| pending_ := pending_ c; timeout_ := timeout_ c; id_ := id_ c;
            reading_ := true; effects := effects c |}.

(** [async_timeout(timer, id)]: the timer of entry [id] gets its expiry
    and an outstanding wait.  The callback of the wait is
    [timeout_callback] below. *)
Definition async_timeout (id : Z) (c : client) : client :=
  emit [TimerExpiresAfter id (timeout_ c); TimerAsyncWait id]
    (set_pending (alter (λ e, (e.1, {| waiting := true |})) id (pending_ c)) c).

(** [maybe_call_handler(id, result, ec)]; [id] is an [int], the key of
    the table a [uint32_t]. *)
Definition maybe_call_handler (id : Z) (res : object) (ec : error_code)
    (c : client) : client :=
  match pending_ c !! to_uint32 id with
  | None => c
  | Some (handler, timer) =>
      emit [TimerCancel (to_uint32 id); Invoke handler ec res]
        (set_pending (delete (to_uint32 id) (pending_ c)) c)
  end.

(** The completion of the [async_write] started by [async_call]. *)
Definition write_callback (id : Z) (ec : error_code) (c : client) : client :=
  if is_error ec
  then maybe_call_handler (to_int id) (STR (message ec)) ec c
  else c.

(** [async_call(name, args, handler)]. *)
Definition async_call (name : string) (args : list object)
    (handler : async_call_handler_type) (c : client) : client :=
  let id := id_ c in
  let c := {| pending_ := pending_ c; timeout_ := timeout_ c;
              id_ := to_uint32 (id + 1);
              reading_ := reading_ c; effects := effects c |} in
  let packer_buf :=
    ARRAY [POSITIVE_INTEGER (rpc_tag request); POSITIVE_INTEGER id;
           STR name; ARRAY args] in
  (* try_emplace: an entry already stored under [id] is kept *)
  let c :=
    match pending_ c !! id with
    | Some _ => c
    | None => set_pending (<[id := (handler, {| waiting := false |})]> (pending_ c)) c
    end in
  let c := if (0 <? timeout_ c)%Z then async_timeout id c else c in
  let c := maybe_start_reading c in
  emit [AsyncWrite id packer_buf] c.

(** The callback given to [timer.async_wait] by [async_timeout]. *)
Definition timeout_callback (id : Z) (ec : error_code) (c : client) : client :=
  if is_operation_aborted ec then c
  else
    match pending_ c !! id with
    | None => c
    | Some (handler, timer) =>
        let c := set_pending (delete id (pending_ c)) c in
        let ec := make_error_code timeout in
        emit [Invoke handler ec (STR (message ec))] c
    end.

(** [verify_reponse]; [None] when [as<int>] throws. *)
Definition verify_reponse (resp : object) : option bool :=
  match resp with
  | ARRAY ptr =>
      if decide (length ptr = 4) then
        match as_int (nth 0 ptr NIL) with
        | Some type => Some (type =? rpc_tag response)%Z
        | None => None
        end
      else Some false
  | _ => Some false
  end.

Definition array_ptr (o : object) : list object :=
  match o with ARRAY ptr => ptr | _ => [] end.

(** [dispatch(response, ec)]. *)
Definition dispatch (resp : object) (ec : error_code) (c : client) : result :=
  match verify_reponse resp with
  | None => Throw
  | Some false => Ok (close_connection c)
  | Some true =>
      match as_int (nth 1 (array_ptr resp) NIL) with
      | None => Throw
      | Some id =>
          let err := nth 2 (array_ptr resp) NIL in
          let res := nth 3 (array_ptr resp) NIL in
          if negb (is_nil err)
          then Ok (maybe_call_handler id err (make_error_code call_error) c)
          else Ok (maybe_call_handler id res (make_error_code success) c)
      end
  end.

(** *** Notions used to state the properties *)

(** The table key a response is routed to: the id element of a
    response that passes [verify_reponse], read as an [int] and
    converted to the key type. *)
Definition response_id (resp : object) : option Z :=
  match verify_reponse resp with
  | Some true => to_uint32 <$> as_int (nth 1 (array_ptr resp) NIL)
  | _ => None
  end.

(** The three ways in which an entry of the table is taken out: the
    callback of its timer, a response, the callback of a failed write. *)
Inductive path :=
| TimerFires (ec : error_code)
| ResponseArrives (resp : object) (ec : error_code)
| WriteFails (ec : error_code).

Definition consume (p : path) (id : Z) (c : client) : result :=
  match p with
  | TimerFires ec => Ok (timeout_callback id ec c)
  | ResponseArrives resp ec => dispatch resp ec c
  | WriteFails ec => Ok (write_callback id ec c)
  end.

(** Whether the path goes for entry [id] at all: the wait was not
    cancelled, the response carries this id, the write did fail. *)
Definition goes_for (p : path) (id : Z) : Prop :=
  match p with
  | TimerFires ec => is_operation_aborted ec = false
  | ResponseArrives resp ec => response_id resp = Some id
  | WriteFails ec => is_error ec = true
  end.

(** The two halves of a path.  Under [pending_mutex_]: the look-up
    that moves the entry out of the table.  After [unlock]: the calls
    made with the entry that was moved out. *)
Definition take_entry (id : Z) (c : client) : option entry * client :=
  match pending_ c !! id with
  | None => (None, c)
  | Some e => (Some e, set_pending (delete id (pending_ c)) c)
  end.

Definition deliver (p : path) (id : Z) (e : entry) (c : client) : client :=
  match p with
  | TimerFires _ =>
      emit [Invoke e.1 (make_error_code timeout)
              (STR (message (make_error_code timeout)))] c
  | ResponseArrives resp _ =>
      let err := nth 2 (array_ptr resp) NIL in
      let res := nth 3 (array_ptr resp) NIL in
      if negb (is_nil err)
      then emit [TimerCancel id; Invoke e.1 (make_error_code call_error) err] c
      else emit [TimerCancel id; Invoke e.1 (make_error_code success) res] c
  | WriteFails ec =>
      emit [TimerCancel id; Invoke e.1 ec (STR (message ec))] c
  end.

(** A thread running a path: before the look-up, between the look-up
    and the calls, done. *)
Inductive thread :=
| Waiting (p : path)
| Holding (p : path) (e : entry)
| Finished.

Definition thread_step (id : Z) (t : thread) (c : client) : thread * client :=
  match t with
  | Waiting p =>
      match take_entry id c with
      | (None, c') => (Finished, c')
      | (Some e, c') => (Holding p e, c')
      end
  | Holding p e => (Finished, deliver p id e c)
  | Finished => (Finished, c)
  end.

(** Two threads interleaved by a schedule: [true] lets the first one
    take a step, [false] the second. *)
Fixpoint run_race (id : Z) (schedule : list bool) (t1 t2 : thread) (c : client)
  : thread * thread * client :=
  match schedule with
  | [] => (t1, t2, c)
  | true :: rest =>
      let '(t1', c') := thread_step id t1 c in run_race id rest t1' t2 c'
  | false :: rest =>
      let '(t2', c') := thread_step id t2 c in run_race id rest t1 t2' c'
  end.

End Messages.

(** The effects added between two states of a client. *)
Definition effects_since (c c' : client) : list effect :=
  drop (length (effects c)) (effects c').

Definition arms_timer (e : effect) : bool :=
  match e with
  | TimerExpiresAfter _ _ | TimerAsyncWait _ => true
  | _ => false
  end.

(** The calls of user completions among some effects, in order. *)
Definition invocations (es : list effect)
  : list (async_call_handler_type * error_code * object) :=
  omap (λ e, match e with Invoke h ec v => Some (h, ec, v) | _ => None end) es.

Definition no_holder (t : thread) : Prop :=
  match t with Holding _ _ => False | _ => True end.

(** What two racing threads keep true: the entry is in exactly one
    place.  Either it is still in the table and nobody has passed the
    look-up; or one thread holds it and nothing has been called; or its
    completion has been called, once. *)
Definition race_inv (c0 : client) (id : Z) (handler : async_call_handler_type)
    (t1 t2 : thread) (c : client) : Prop :=
  length (effects c0) ≤ length (effects c)
  ∧ ((∃ timer p1 p2, t1 = Waiting p1 ∧ t2 = Waiting p2
        ∧ pending_ c !! id = Some (handler, timer)
        ∧ invocations (effects_since c0 c) = [])
     ∨ (pending_ c !! id = None
        ∧ invocations (effects_since c0 c) = []
        ∧ ((∃ p timer, t1 = Holding p (handler, timer) ∧ no_holder t2)
           ∨ (∃ p timer, t2 = Holding p (handler, timer) ∧ no_holder t1)))
     ∨ (pending_ c !! id = None ∧ no_holder t1 ∧ no_holder t2
        ∧ ∃ ec v, invocations (effects_since c0 c) = [(handler, ec, v)])).

(** *** States used in examples *)

(** A client that has made 2147483648 calls, all of them answered: its
    counter stands at the first id that does not fit an [int]. *)
Definition half_way_client : client :=
  {| pending_ := ∅; timeout_ := 0; id_ := 2147483648;
     reading_ := true; effects := [] |}.

(** A client with timeout 1 after one call of [block] whose completion
    is named 7: entry 0 is in the table, with its timer waiting. *)
Definition blocked_call : client :=
  async_call "block" [] 7 (set_timeout 1 new_client).

End Client.

(** * Properties of the framer *)

Import IncrementalBuffers.

(** Running the framer on a given stream, for both settings of
    [NDEBUG]. *)
Ltac run_framer :=
  intros NDEBUG; destruct NDEBUG; vm_compute;
  repeat match goal with
         | |- _ ∧ _ => split
         | |- ∃ _, _ => eexists
         end; reflexivity.

Section FindFirstOf.

Implicit Types (s chars : bytes) (pos : Z).

Lemma char_at_lookup s i c : s !! i = Some c → char_at s i = c.
Proof. intros H. unfold char_at. by rewrite nth_lookup, H. Qed.

(** What [find_first_of] returns: [npos] when no character from [pos]
    on is in [chars], and otherwise the least such index. *)
Lemma find_first_of_cases s chars pos :
  (0 ≤ pos)%Z →
  (find_first_of s chars pos = npos ∧
   ∀ i, Z.to_nat pos ≤ i < length s → char_at s i ∉ chars) ∨
  (∃ k, find_first_of s chars pos = (pos + Z.of_nat k)%Z ∧
        Z.to_nat pos + k < length s ∧
        char_at s (Z.to_nat pos + k) ∈ chars ∧
        ∀ j, j < k → char_at s (Z.to_nat pos + j) ∉ chars).
Proof.
  intros Hpos. unfold find_first_of.
  destruct (list_find _ _) as [[k x]|] eqn:E.
  - right. exists k. apply list_find_Some in E as (Hk & Hx & Hmin).
    rewrite lookup_drop in Hk. split; [done|].
    split; [by apply lookup_lt_Some in Hk|].
    split; [by rewrite (char_at_lookup _ _ _ Hk)|].
    intros j Hj Hin.
    destruct (drop (Z.to_nat pos) s !! j) as [y|] eqn:Ej.
    + apply (Hmin j y Ej Hj). rewrite lookup_drop in Ej.
      by rewrite (char_at_lookup _ _ _ Ej) in Hin.
    + apply lookup_ge_None in Ej. apply lookup_lt_Some in Hk.
      rewrite length_drop in Ej. lia.
  - left. split; [done|]. apply list_find_None in E.
    intros i Hi Hin. rewrite Forall_forall in E.
    destruct (s !! i) as [c|] eqn:Ei.
    + rewrite (char_at_lookup _ _ _ Ei) in Hin. apply (E c); [|done].
      apply list_elem_of_lookup. exists (i - Z.to_nat pos).
      rewrite lookup_drop. by replace (Z.to_nat pos + (i - Z.to_nat pos)) with i by lia.
    + apply lookup_ge_None in Ei. lia.
Qed.

(** A token at [r], at or after [pos], makes the search succeed at or
    before [r]. *)
Lemma find_first_of_upto s chars pos (r : nat) :
  (0 ≤ pos ≤ Z.of_nat r)%Z → r < length s → char_at s r ∈ chars →
  ∃ p : nat, find_first_of s chars pos = Z.of_nat p ∧
             (pos ≤ Z.of_nat p)%Z ∧ p ≤ r ∧ char_at s p ∈ chars.
Proof.
  intros Hpos Hr Hin.
  destruct (find_first_of_cases s chars pos) as [[_ Hno]|(k & Hk & Hlt & Hc & Hmin)]; [lia| |].
  - exfalso. apply (Hno r); [lia|done].
  - exists (Z.to_nat pos + k). rewrite Hk. split; [lia|]. split; [lia|].
    split; [|done].
    destruct (decide (Z.to_nat pos + k ≤ r)); [done|].
    exfalso. apply (Hmin (r - Z.to_nat pos)); [lia|].
    by replace (Z.to_nat pos + (r - Z.to_nat pos)) with r by lia.
Qed.

End FindFirstOf.

Section Termination.

Variable NDEBUG : bool.

Lemma size_t_small z : (0 ≤ z ≤ SIZE_MAX)%Z → size_t z = z.
Proof. unfold size_t, SIZE_MAX. intros H. apply Z.mod_small. lia. Qed.

Lemma size_t_range z : (0 ≤ size_t z ≤ SIZE_MAX)%Z.
Proof.
  unfold size_t, SIZE_MAX.
  pose proof (Z.mod_pos_bound z (2 ^ 64)). lia.
Qed.

Lemma size_t_minus_one_plus_one : size_t (size_t (-1) + 1) = 0%Z.
Proof. reflexivity. Qed.

Lemma initialize_Some first_char s s' :
  initialize NDEBUG first_char s = Some s' →
  buffer_len s' = buffer_len s
  ∧ raw_buffer_ s' = raw_buffer_ s
  ∧ serialized_objects_ s' = serialized_objects_ s.
Proof.
  unfold initialize.
  repeat match goal with
         | |- context [if ?b then _ else _] => destruct b
         end; by intros [= <-].
Qed.

Lemma buffer_length s : length (buffer_ s) ≤ buffer_len s.
Proof. unfold buffer_. rewrite length_take. lia. Qed.

(** Each iteration that continues leaves fewer bytes to scan, and never
    lengthens the view. *)
Lemma parse_step_progress s token_pos s' token_pos' :
  (Z.of_nat (buffer_len s) ≤ SIZE_MAX)%Z →
  parse_step NDEBUG s token_pos = Continue s' token_pos' →
  buffer_len s' ≤ buffer_len s ∧ to_scan s' token_pos' < to_scan s token_pos.
Proof.
  intros Hlen. unfold parse_step, to_scan.
  pose proof (size_t_range (token_pos + 1)) as Hr.
  pose proof (buffer_length s) as Hb.
  destruct (find_first_of_cases (buffer_ s) (tokens_ s) (size_t (token_pos + 1)))
    as [[-> _]|(k & -> & Hk & _)]; [lia| |].
  { rewrite Z.eqb_refl. discriminate. }
  set (p := (size_t (token_pos + 1) + Z.of_nat k)%Z) in *.
  assert (Hp : (0 ≤ p ∧ p + 1 ≤ Z.of_nat (buffer_len s))%Z) by (unfold p; lia).
  assert (Hp1 : size_t (p + 1) = (p + 1)%Z) by (apply size_t_small; lia).
  replace (size_t (p - (p + 1))) with (size_t (-1)) by (f_equal; lia).
  destruct (p =? npos)%Z; [discriminate|].
  repeat match goal with
         | |- context [if ?b then _ else _] => destruct b
         end;
    intros [= <- <-]; cbn [buffer_len set_in_string set_depth store_object];
    rewrite ?Hp1, ?size_t_minus_one_plus_one; lia.
Qed.

(** The loop reaches its [break] (or a failed assertion) within
    [to_scan + 1] iterations. *)
Lemma parse_loop_total fuel s token_pos :
  (Z.of_nat (buffer_len s) ≤ SIZE_MAX)%Z →
  to_scan s token_pos < fuel →
  parse_loop NDEBUG fuel s token_pos ≠ OutOfFuel.
Proof.
  revert s token_pos. induction fuel as [|fuel IH]; intros s token_pos Hlen Hf; [lia|].
  cbn [parse_loop].
  destruct (parse_step NDEBUG s token_pos) as [|s' tp'|] eqn:E; [done| |done].
  apply parse_step_progress in E as [Hle Hlt]; [|done].
  apply IH; lia.
Qed.

(** More fuel than needed does not change the result. *)
Lemma parse_loop_fuel_mono fuel fuel' s token_pos :
  fuel ≤ fuel' →
  parse_loop NDEBUG fuel s token_pos ≠ OutOfFuel →
  parse_loop NDEBUG fuel' s token_pos = parse_loop NDEBUG fuel s token_pos.
Proof.
  revert fuel' s token_pos. induction fuel as [|fuel IH]; intros fuel' s token_pos Hle Hne.
  - by cbn in Hne.
  - destruct fuel' as [|fuel']; [lia|]. cbn [parse_loop] in *.
    destruct (parse_step NDEBUG s token_pos); [done| |done].
    apply IH; [lia|done].
Qed.

(** [feed] always returns: the fuel given to the loop by
    [incremental_parse] is never used up. *)
Lemma feed_total s data :
  (Z.of_nat (buffer_len s + length data) ≤ SIZE_MAX)%Z →
  feed NDEBUG s data ≠ OutOfFuel.
Proof.
  intros Hlen. unfold feed, in_place_buffer_consumed, incremental_parse.
  set (s1 := set_raw_buffer _ _).
  assert (Hs1 : buffer_len s1 = buffer_len s).
  { unfold s1, reserve_in_place_buffer. by destruct (decide _). }
  destruct (decide (length data = 0)); [done|].
  assert (Hloop : ∀ s2, buffer_len s2 = buffer_len s →
    parse_loop NDEBUG (S (buffer_len (set_buffer_len (buffer_len s2 + length data) s2)))
      (set_buffer_len (buffer_len s2 + length data) s2) (Z.of_nat (buffer_len s2))
    ≠ OutOfFuel).
  { intros s2 Hs2. apply parse_loop_total; cbn [buffer_len set_buffer_len].
    - rewrite Hs2. lia.
    - unfold to_scan. cbn [buffer_len set_buffer_len].
      pose proof (size_t_range (Z.of_nat (buffer_len s2) + 1)). lia. }
  destruct (decide (buffer_len s1 = 0)).
  - destruct (_ =? npos)%Z; [done|].
    destruct (initialize _ _ _) as [s2|] eqn:E; [|done].
    apply Hloop. apply initialize_Some in E as (-> & _). done.
  - by apply Hloop.
Qed.

End Termination.

Section Strings.

Variable NDEBUG : bool.

(** [is_escaped] computes the parity of the run of backslashes in front
    of the position. *)
Lemma is_escaped_from_parity buf pos escaped :
  is_escaped_from buf pos escaped
  = xorb escaped (Nat.odd (backslashes_before buf pos)).
Proof.
  revert escaped. induction pos as [|pos IH]; intros escaped; cbn.
  - by destruct escaped.
  - destruct (Ascii.eqb _ _).
    + rewrite IH, Nat.odd_succ, <- Nat.negb_odd. by destruct escaped, (Nat.odd _).
    + by destruct escaped.
Qed.

Lemma is_escaped_odd s pos :
  is_escaped s pos = Nat.odd (backslashes_before (buffer_ s) pos).
Proof. unfold is_escaped. by rewrite is_escaped_from_parity. Qed.

Lemma is_escaped_Even s pos :
  Nat.Even (backslashes_before (buffer_ s) pos) → is_escaped s pos = false.
Proof.
  intros H. rewrite is_escaped_odd, <- Nat.negb_even.
  apply Nat.even_spec in H. by rewrite H.
Qed.

Lemma is_escaped_Odd s pos :
  Nat.Odd (backslashes_before (buffer_ s) pos) → is_escaped s pos = true.
Proof. intros H. rewrite is_escaped_odd. by apply Nat.odd_spec. Qed.

(** The iteration at an unescaped quote. *)
Lemma parse_step_toggle s token_pos p :
  find_first_of (buffer_ s) (tokens_ s) (size_t (token_pos + 1)) = p →
  p ≠ npos →
  char_at (buffer_ s) (Z.to_nat p) = quote →
  is_escaped s (Z.to_nat p) = false →
  parse_step NDEBUG s token_pos = Continue (set_in_string (negb (in_string_ s)) s) p.
Proof.
  intros Hp Hn Hq He. unfold parse_step. rewrite Hp.
  apply Z.eqb_neq in Hn. rewrite Hn, Hq, He. reflexivity.
Qed.

(** The iteration at any other token while inside a string. *)
Lemma parse_step_in_string s token_pos p :
  find_first_of (buffer_ s) (tokens_ s) (size_t (token_pos + 1)) = p →
  p ≠ npos →
  in_string_ s = true →
  char_at (buffer_ s) (Z.to_nat p) ≠ quote ∨ is_escaped s (Z.to_nat p) = true →
  parse_step NDEBUG s token_pos = Continue s p.
Proof.
  intros Hp Hn Hs Hq. unfold parse_step. rewrite Hp.
  apply Z.eqb_neq in Hn. rewrite Hn, Hs.
  destruct Hq as [Hq|Hq].
  - apply Ascii.eqb_neq in Hq. by rewrite Hq.
  - rewrite Hq. by rewrite andb_false_r.
Qed.

(** From just behind an opening quote at [q], the loop runs through the
    string up to its closing quote at [r] and arrives there with
    nothing changed but [in_string_]. *)
Lemma parse_loop_skips_string s (r : nat) :
  in_string_ s = true →
  quote ∈ tokens_ s →
  r < length (buffer_ s) →
  (Z.of_nat (length (buffer_ s)) ≤ SIZE_MAX)%Z →
  char_at (buffer_ s) r = quote →
  Nat.Even (backslashes_before (buffer_ s) r) →
  ∀ (n q : nat), r - q ≤ n → q < r →
    (∀ i, q < i < r → char_at (buffer_ s) i = quote →
          Nat.Odd (backslashes_before (buffer_ s) i)) →
    ∃ k, ∀ fuel,
      parse_loop NDEBUG (k + fuel) s (Z.of_nat q)
      = parse_loop NDEBUG fuel (set_in_string false s) (Z.of_nat r).
Proof.
  intros Hs Htok Hr Hmax Hquote Heven.
  induction n as [|n IH]; intros q Hn Hq Hesc; [lia|].
  assert (Hnext : size_t (Z.of_nat q + 1) = (Z.of_nat q + 1)%Z).
  { apply size_t_small. lia. }
  destruct (find_first_of_upto (buffer_ s) (tokens_ s) (Z.of_nat q + 1) r)
    as (p & Hfind & Hlo & Hhi & _); [lia|done|by rewrite Hquote|].
  rewrite <- Hnext in Hfind.
  assert (Hnpos : Z.of_nat p ≠ npos) by (unfold npos; lia).
  destruct (decide (p = r)) as [->|Hne].
  - exists 1. intros fuel. cbn [Nat.add parse_loop].
    rewrite (parse_step_toggle s _ _ Hfind Hnpos), Hs; rewrite ?Nat2Z.id; auto.
    by apply is_escaped_Even.
  - destruct (IH p) as [k Hk]; [lia|lia| |].
    { intros i Hi. apply Hesc. lia. }
    exists (S k). intros fuel. cbn [Nat.add parse_loop].
    rewrite (parse_step_in_string s _ _ Hfind Hnpos Hs); [apply Hk|].
    rewrite Nat2Z.id.
    destruct (decide (char_at (buffer_ s) p = quote)) as [Hc|Hc]; [right|by left].
    apply is_escaped_Odd, Hesc; [lia|done].
Qed.

End Strings.

Section Queue.

Lemma parse_step_appends NDEBUG s token_pos s' token_pos' :
  parse_step NDEBUG s token_pos = Continue s' token_pos' →
  serialized_objects_ s' = serialized_objects_ s ∨
  ∃ object, serialized_objects_ s' = serialized_objects_ s ++ [object].
Proof.
  unfold parse_step.
  repeat match goal with
         | |- context [if ?b then _ else _] => destruct b
         end; intros [= <- <-]; cbn; eauto.
Qed.

Lemma parse_loop_appends NDEBUG fuel s token_pos s' :
  parse_loop NDEBUG fuel s token_pos = Done s' →
  ∃ new, serialized_objects_ s' = serialized_objects_ s ++ new.
Proof.
  revert s token_pos. induction fuel as [|fuel IH]; intros s token_pos; [done|].
  cbn [parse_loop].
  destruct (parse_step NDEBUG s token_pos) as [|s1 tp1|] eqn:E; [|intros H|done].
  - intros [= <-]. exists []. by rewrite app_nil_r.
  - apply IH in H as [new Hnew].
    apply parse_step_appends in E as [E|[object E]]; rewrite Hnew, E; eauto.
    exists (object :: new). by rewrite <- app_assoc.
Qed.

Lemma feed_appends NDEBUG s data s' :
  feed NDEBUG s data = Done s' →
  ∃ new, serialized_objects_ s' = serialized_objects_ s ++ new.
Proof.
  unfold feed, in_place_buffer_consumed, incremental_parse.
  set (s1 := set_raw_buffer _ _).
  assert (Hs1 : serialized_objects_ s1 = serialized_objects_ s).
  { unfold s1, reserve_in_place_buffer. by destruct (decide _). }
  rewrite <- Hs1.
  assert (Hnil : ∃ new, serialized_objects_ s1 = serialized_objects_ s1 ++ new).
  { exists []. by rewrite app_nil_r. }
  destruct (decide (length data = 0)); [by intros [= <-]|].
  destruct (decide (buffer_len s1 = 0)).
  - destruct (_ =? npos)%Z; [by intros [= <-]|].
    destruct (initialize _ _ _) as [s2|] eqn:E; [|done].
    apply initialize_Some in E as (_ & _ & E).
    intros H. apply parse_loop_appends in H as [new H]. exists new.
    cbn [serialized_objects_ set_buffer_len] in H. by rewrite H, E.
  - intros H. by apply parse_loop_appends in H.
Qed.

Lemma drain_all s : drain (available_buffers s) s = serialized_objects_ s.
Proof.
  unfold available_buffers.
  destruct s as [b d f l t n raw objs]. cbn [serialized_objects_].
  induction objs as [|o objs IH]; [done|].
  cbn [length drain get_parsed_buffer serialized_objects_]. f_equal.
  exact IH.
Qed.

End Queue.

Section Separators.

Variable NDEBUG : bool.

Lemma copy_at_front raw data :
  take (length data) (copy_at raw 0 data) = data.
Proof.
  unfold copy_at. rewrite take_0. cbn [app]. by rewrite take_app_length.
Qed.

(** The one case in which bytes are discarded: a chunk that holds no
    opener and arrives while the view is empty changes nothing but the
    spare storage behind the view. *)
Lemma chunk_without_opener_is_dropped s data :
  buffer_len s = 0 →
  Forall (λ c, c ∉ [lbrace; lbracket]) data →
  ∃ raw, feed NDEBUG s data = Done (set_raw_buffer raw s).
Proof.
  intros Hlen Hno. unfold feed, in_place_buffer_consumed, incremental_parse.
  set (s0 := reserve_in_place_buffer s (length data)).
  assert (Hs0 : ∀ raw, set_raw_buffer raw s0 = set_raw_buffer raw s).
  { intros raw. unfold s0, reserve_in_place_buffer. by destruct (decide _). }
  assert (Hl0 : buffer_len s0 = 0).
  { unfold s0, reserve_in_place_buffer. by destruct (decide _). }
  rewrite Hs0. cbn [buffer_len raw_buffer_ set_raw_buffer]. rewrite Hl0, Hlen.
  destruct (decide (length data = 0)); [by eexists|].
  destruct (decide (0 = 0)); [|done].
  rewrite drop_0, copy_at_front.
  destruct (find_first_of_cases data [lbrace; lbracket] 0)
    as [[-> _]|(k & _ & Hk & Hin & _)]; [done| |].
  - rewrite Z.eqb_refl. by eexists.
  - exfalso. rewrite Forall_forall in Hno. apply (Hno (char_at data k)); [|done].
    apply list_elem_of_lookup. exists k.
    destruct (data !! k) as [c|] eqn:E.
    + by rewrite (char_at_lookup _ _ _ E).
    + apply lookup_ge_None in E. cbn in Hk. lia.
Qed.

End Separators.

Section ByteByByte.

Variable NDEBUG : bool.

Lemma find_first_of_beyond s chars pos :
  (Z.of_nat (length s) ≤ pos)%Z → find_first_of s chars pos = npos.
Proof.
  intros H. unfold find_first_of. rewrite drop_ge by lia. reflexivity.
Qed.

Lemma find_first_of_single c chars :
  find_first_of [c] chars 0 = if decide (c ∈ chars) then 0%Z else npos.
Proof.
  unfold find_first_of. change (drop (Z.to_nat 0) [c]) with [c].
  unfold list_find. by destruct (decide (c ∈ chars)).
Qed.

(** A step whose search starts behind the end of the view breaks the
    loop at once. *)
Lemma parse_step_beyond s token_pos :
  (Z.of_nat (buffer_len s) ≤ size_t (token_pos + 1))%Z →
  parse_step NDEBUG s token_pos = Break.
Proof.
  intros H. unfold parse_step. rewrite find_first_of_beyond.
  - by rewrite Z.eqb_refl.
  - pose proof (buffer_length s). lia.
Qed.

(** A chunk of one byte appended to a view that is not empty is never
    looked at, whatever the byte: the scan starts one position behind
    it.  Only the length of the view changes. *)
Lemma single_byte_is_not_scanned s c :
  buffer_len s ≠ 0 →
  (Z.of_nat (buffer_len s) < SIZE_MAX)%Z →
  ∃ raw, feed NDEBUG s [c]
         = Done (set_buffer_len (buffer_len s + 1) (set_raw_buffer raw s)).
Proof.
  intros Hne Hmax. unfold feed, in_place_buffer_consumed, incremental_parse.
  set (s0 := reserve_in_place_buffer s (length [c])).
  assert (Hs0 : ∀ raw, set_raw_buffer raw s0 = set_raw_buffer raw s).
  { intros raw. unfold s0, reserve_in_place_buffer. by destruct (decide _). }
  assert (Hl0 : buffer_len s0 = buffer_len s).
  { unfold s0, reserve_in_place_buffer. by destruct (decide _). }
  rewrite Hs0. cbn [length buffer_len raw_buffer_ set_raw_buffer]. rewrite Hl0.
  destruct (decide (1 = 0)); [done|].
  destruct (decide (buffer_len s = 0)); [done|].
  cbn [parse_loop]. rewrite parse_step_beyond; [by eexists|].
  cbn [buffer_len set_buffer_len]. rewrite size_t_small; lia.
Qed.

(** The first byte of a stream, arriving alone in an empty view: an
    opener starts a message, any other byte is dropped; nothing is
    emitted and the view holds at most that byte. *)
Lemma first_byte_alone s c :
  buffer_len s = 0 →
  ∃ s', feed NDEBUG s [c] = Done s'
        ∧ serialized_objects_ s' = serialized_objects_ s
        ∧ buffer_len s' ≤ 1.
Proof.
  intros Hlen. unfold feed, in_place_buffer_consumed, incremental_parse.
  set (s0 := reserve_in_place_buffer s (length [c])).
  assert (Hs0 : ∀ raw, set_raw_buffer raw s0 = set_raw_buffer raw s).
  { intros raw. unfold s0, reserve_in_place_buffer. by destruct (decide _). }
  assert (Hl0 : buffer_len s0 = 0).
  { unfold s0, reserve_in_place_buffer. by destruct (decide _). }
  rewrite Hs0. cbn [length buffer_len raw_buffer_ set_raw_buffer]. rewrite Hl0, Hlen.
  destruct (decide (1 = 0)); [done|]. destruct (decide (0 = 0)); [|done].
  rewrite drop_0.
  replace (take 1 (copy_at (raw_buffer_ s0) 0 [c])) with [c]
    by (symmetry; apply (copy_at_front _ [c])).
  rewrite find_first_of_single.
  destruct (decide (c ∈ [lbrace; lbracket])) as [Hin|Hin].
  - assert (∃ s2, initialize NDEBUG c (set_raw_buffer (copy_at (raw_buffer_ s0) 0 [c]) s)
                  = Some s2) as [s2 E].
    { unfold initialize.
      apply elem_of_cons in Hin as [->|Hin]; [by eexists|].
      apply elem_of_cons in Hin as [->|Hin]; [by eexists|].
      by apply elem_of_nil in Hin. }
    change (0 =? npos)%Z with false.
    change (char_at [c] (Z.to_nat 0)) with c. cbv iota. rewrite E.
    apply initialize_Some in E as (Hb & _ & Hobjs).
    cbn [buffer_len set_raw_buffer] in Hb. rewrite Hb, Hlen.
    cbn [parse_loop]. rewrite parse_step_beyond.
    + eexists. split; [reflexivity|].
      cbn [serialized_objects_ buffer_len set_buffer_len].
      rewrite Hobjs. split; [done|lia].
    + cbn [buffer_len set_buffer_len]. rewrite size_t_small; unfold SIZE_MAX; lia.
  - rewrite Z.eqb_refl. eexists. split; [reflexivity|].
    cbn. rewrite Hlen. split; [done|lia].
Qed.

(** Hence a stream that arrives one byte at a time is never framed:
    no buffer is emitted, whatever the stream holds. *)
Lemma byte_by_byte_emits_nothing (stream : bytes) :
  ∀ s, (Z.of_nat (buffer_len s + length stream) < SIZE_MAX)%Z →
    ∃ s', feed_all NDEBUG s (map (λ c, [c]) stream) = Done s'
          ∧ serialized_objects_ s' = serialized_objects_ s
          ∧ buffer_len s' ≤ buffer_len s + length stream.
Proof.
  induction stream as [|c stream IH]; intros s Hmax.
  { exists s. cbn. split; [done|]. split; [done|lia]. }
  cbn [map feed_all length] in *.
  destruct (decide (buffer_len s = 0)) as [Hz|Hnz].
  - destruct (first_byte_alone s c Hz) as (s1 & -> & Hobjs & Hlen).
    destruct (IH s1) as (s' & -> & Hobjs' & Hlen'); [lia|].
    exists s'. split; [done|]. split; [congruence|lia].
  - destruct (single_byte_is_not_scanned s c Hnz) as (raw & ->); [lia|].
    destruct (IH (set_buffer_len (buffer_len s + 1) (set_raw_buffer raw s)))
      as (s' & -> & Hobjs' & Hlen'); [cbn; lia|].
    exists s'. split; [done|]. split; [by rewrite Hobjs'|].
    cbn [buffer_len set_buffer_len] in Hlen'. lia.
Qed.

End ByteByByte.

(** * The claims about the framer *)

(** The rules of the scan for the tokens it visits.  In one iteration,
    a quote with an even number of backslashes in front of it flips
    [in_string_]; a quote with an odd number does not; and inside a
    string no token changes the depth, the queue or the buffer.  Hence
    the loop, started behind an opening quote that it has seen, reaches
    the closing quote of the string with the depth it had, whatever
    brackets and escaped quotes the string holds. *)
Theorem quotes_toggle_and_strings_keep_depth
    (NDEBUG : bool) (s : incremental_buffers) (token_pos : Z) :
  let p := find_first_of (buffer_ s) (tokens_ s) (size_t (token_pos + 1)) in
  let token := char_at (buffer_ s) (Z.to_nat p) in
  let slashes := backslashes_before (buffer_ s) (Z.to_nat p) in
  (p ≠ npos → token = quote → Nat.Even slashes →
   parse_step NDEBUG s token_pos
   = Continue (set_in_string (negb (in_string_ s)) s) p)
  ∧ (p ≠ npos → token = quote → Nat.Odd slashes →
     match parse_step NDEBUG s token_pos with
     | Continue s' _ => in_string_ s' = in_string_ s
     | Break => False
     | AssertFailed => in_string_ s = false
     end)
  ∧ (p ≠ npos → in_string_ s = true →
     ∃ s', parse_step NDEBUG s token_pos = Continue s' p
           ∧ depth_ s' = depth_ s
           ∧ serialized_objects_ s' = serialized_objects_ s
           ∧ raw_buffer_ s' = raw_buffer_ s
           ∧ buffer_len s' = buffer_len s)
  ∧ (∀ q r : nat,
       token_pos = Z.of_nat q →
       in_string_ s = true →
       quote ∈ tokens_ s →
       q < r < length (buffer_ s) →
       (Z.of_nat (length (buffer_ s)) ≤ SIZE_MAX)%Z →
       char_at (buffer_ s) r = quote →
       Nat.Even (backslashes_before (buffer_ s) r) →
       (∀ i, q < i < r → char_at (buffer_ s) i = quote →
             Nat.Odd (backslashes_before (buffer_ s) i)) →
       ∃ k, ∀ fuel,
         parse_loop NDEBUG (k + fuel) s token_pos
         = parse_loop NDEBUG fuel (set_in_string false s) (Z.of_nat r)).
Proof.
  intros p token slashes. repeat split.
  - intros Hn Hq He. apply parse_step_toggle; auto. by apply is_escaped_Even.
  - intros Hn Hq Ho. unfold parse_step. fold p. fold token.
    apply Z.eqb_neq in Hn. rewrite Hn.
    rewrite (is_escaped_Odd s _ Ho), andb_false_r.
    repeat match goal with
           | |- context [if ?b then _ else _] => destruct b eqn:?
           end; cbn; auto.
  - intros Hn Hs.
    destruct (Ascii.eqb token quote && negb (is_escaped s (Z.to_nat p))) eqn:E.
    + apply andb_true_iff in E as [Hq He]. apply Ascii.eqb_eq in Hq.
      apply negb_true_iff in He.
      eexists. split; [by apply parse_step_toggle|]. by cbn.
    + exists s. split; [|done]. apply parse_step_in_string; auto.
      apply andb_false_iff in E as [Hq|He].
      * left. by apply Ascii.eqb_neq.
      * right. by apply negb_false_iff.
  - intros q r -> Hs Htok [Hq Hr] Hmax Hquote Heven Hesc.
    apply (parse_loop_skips_string NDEBUG s r Hs Htok Hr Hmax Hquote Heven (r - q));
      [lia|done|done].
Qed.

Lemma quotes_toggle_and_strings_keep_depth_witness :
  parse_step false (before_escaped_quote false) 0
    = Continue (before_escaped_quote true) 1
  ∧ match parse_step false (before_escaped_quote true) 1 with
    | Continue s' _ => in_string_ s' = true
    | Break => False
    | AssertFailed => true = false
    end
  ∧ (∃ s', parse_step false in_braces_string 1 = Continue s' 2
           ∧ depth_ s' = 1%Z
           ∧ serialized_objects_ s' = []
           ∧ raw_buffer_ s' = [lbrace; quote; rbrace; quote; rbrace]
           ∧ buffer_len s' = 5)
  ∧ ∃ k, ∀ fuel,
      parse_loop false (k + fuel) in_braces_string 1
      = parse_loop false fuel (set_in_string false in_braces_string) 3.
Proof.
  split; [|split; [|split]].
  - apply (quotes_toggle_and_strings_keep_depth false (before_escaped_quote false) 0).
    + discriminate.
    + reflexivity.
    + exists 0. reflexivity.
  - apply (quotes_toggle_and_strings_keep_depth false (before_escaped_quote true) 1).
    + discriminate.
    + reflexivity.
    + exists 0. reflexivity.
  - apply (quotes_toggle_and_strings_keep_depth false in_braces_string 1).
    + discriminate.
    + reflexivity.
  - pose proof (quotes_toggle_and_strings_keep_depth false in_braces_string 1)
      as (_ & _ & _ & H).
    apply (H 1 3).
    + reflexivity.
    + reflexivity.
    + cbn. set_solver.
    + cbn. lia.
    + cbn. unfold SIZE_MAX. lia.
    + reflexivity.
    + exists 0. reflexivity.
    + intros i Hi. assert (i = 2) as -> by lia. discriminate.
Defined.

(** C10.  [get_parsed_buffer] returns [nullopt] exactly when
    [available_buffers] is zero; otherwise it hands out the buffer at
    the front of the queue, removes it and lowers [available_buffers] by
    one.  The scanner only ever pushes at the back of the queue, so the
    buffers come out in the order in which they were emitted. *)
Theorem get_parsed_buffer_is_fifo (s : incremental_buffers) :
  ((get_parsed_buffer s).1 = None ↔ available_buffers s = 0)
  ∧ (∀ buffer rest,
       serialized_objects_ s = buffer :: rest →
       (get_parsed_buffer s).1 = Some buffer
       ∧ serialized_objects_ (get_parsed_buffer s).2 = rest
       ∧ S (available_buffers (get_parsed_buffer s).2) = available_buffers s)
  ∧ drain (available_buffers s) s = serialized_objects_ s
  ∧ (∀ NDEBUG data s',
       feed NDEBUG s data = Done s' →
       ∃ new, serialized_objects_ s' = serialized_objects_ s ++ new
              ∧ drain (available_buffers s') s' = drain (available_buffers s) s ++ new).
Proof.
  split; [|split; [|split]].
  - unfold get_parsed_buffer, available_buffers.
    by destruct (serialized_objects_ s).
  - intros buffer rest H. unfold get_parsed_buffer, available_buffers.
    by rewrite H.
  - apply drain_all.
  - intros NDEBUG data s' H. apply feed_appends in H as [new H].
    exists new. by rewrite !drain_all.
Qed.

Lemma get_parsed_buffer_is_fifo_witness :
  ∃ s', feed false empty (text "{}{{}}") = Done s'
        ∧ available_buffers s' = 2
        ∧ (get_parsed_buffer s').1 = Some (text "{}")
        ∧ (get_parsed_buffer (get_parsed_buffer s').2).1
          = Some (text "{{}}")
        ∧ (get_parsed_buffer (get_parsed_buffer (get_parsed_buffer s').2).2).1 = None.
Proof.
  destruct (feed false empty (text "{}{{}}")) as [s'| |] eqn:E;
    [|discriminate E|discriminate E].
  exists s'. split; [reflexivity|].
  injection E as <-.
  set (s1 := store_object _ _).
  split; [reflexivity|].
  destruct (get_parsed_buffer_is_fifo s1) as (_ & Hfront & _).
  destruct (Hfront (text "{}")
              [text "{{}}"] eq_refl) as (H1 & H2 & _).
  split; [exact H1|].
  destruct (get_parsed_buffer_is_fifo (get_parsed_buffer s1).2) as (_ & Hfront' & _).
  destruct (Hfront' (text "{{}}") [] eq_refl) as (H3 & H4 & _).
  split; [exact H3|].
  destruct (get_parsed_buffer_is_fifo (get_parsed_buffer (get_parsed_buffer s1).2).2)
    as (Hnone & _).
  apply Hnone. reflexivity.
Defined.

(** * The framer on streams it frames and on streams it does not *)

(** Messages that arrive whole, one per chunk or several of the same
    kind in one chunk, are emitted as they are, also when their strings
    hold brackets, escaped quotes and escaped backslashes; and a chunk
    without any opener that arrives while the view is empty is dropped. *)
Example whole_messages_are_framed :
  ∀ NDEBUG : bool,
    let m1 := text "{" ++ [quote] ++ text "k}" ++ [backslash; quote] ++ text "]"
              ++ [quote] ++ text ":[1,{}]}" in
    let m2 := text "[" ++ [quote; backslash; backslash; quote] ++ text ",[]]" in
    let m3 := text "{" ++ [quote] ++ text "a" ++ [quote] ++ text ":{}}" in
    (∃ s, feed_all NDEBUG empty [m1; m2; [newline]; m3 ++ m1] = Done s
          ∧ serialized_objects_ s = [m1; m2; m3; m1]
          ∧ buffer_ s = []).
Proof. run_framer. Qed.



(** C1.  The message [{}] arriving as the chunks [{] and [}] is never
    emitted: the scan of a chunk appended to a message in progress
    starts one byte late, so the closing brace is not seen and the depth
    stays at 1.  And of the stream [{}[]] fed as one chunk only [{}] is
    emitted: the bytes left behind an emitted message are scanned with
    the token set of that message, in which [[] and []] do not occur. *)
Theorem chunked_or_mixed_stream_is_not_framed :
  ∀ NDEBUG : bool,
    (∃ s, feed_all NDEBUG empty [text "{"; text "}"] = Done s
          ∧ serialized_objects_ s = []
          ∧ buffer_ s = text "{}"
          ∧ depth_ s = 1%Z)
    ∧ (∃ s, feed_all NDEBUG empty [text "{}[]"] = Done s
            ∧ serialized_objects_ s = [text "{}"]
            ∧ buffer_ s = text "[]"
            ∧ depth_ s = 0%Z).
Proof. run_framer. Qed.

(** C5.  A space in front of [{}] is kept in the buffer and the opening
    brace behind it is counted a second time, so the message is never
    emitted.  A newline between two messages of one chunk is emitted as
    the first byte of the second buffer.  A newline left behind an
    emitted message keeps the view non-empty, so the next chunk is
    scanned without [initialize], from its second byte on. *)
Theorem bytes_before_the_opener_are_kept :
  ∀ NDEBUG : bool,
    (∃ s, feed NDEBUG empty (text " {}") = Done s
          ∧ serialized_objects_ s = []
          ∧ buffer_ s = text " {}"
          ∧ depth_ s = 1%Z)
    ∧ (∃ s, feed NDEBUG empty (text "{}" ++ [newline] ++ text "{}") = Done s
            ∧ serialized_objects_ s = [text "{}"; newline :: text "{}"])
    ∧ (∃ s, feed_all NDEBUG empty [text "{}" ++ [newline]; text "{}"] = Done s
            ∧ serialized_objects_ s = [text "{}"]
            ∧ buffer_ s = newline :: text "{}"
            ∧ depth_ s = (-1)%Z).
Proof. run_framer. Qed.

(** C6.  The message made of the object with key [a] and the string
    value [{], fed whole, is emitted as it is.  Fed in two chunks of
    which the second begins with the opening quote of that string, it
    is not: the scan of the second chunk starts behind that quote, so
    the brace inside the string is counted (the depth goes from 1 to 2),
    the closing quote of the string opens one, and nothing is
    emitted. *)
Theorem string_split_before_its_quote_alters_depth :
  ∀ NDEBUG : bool,
    (∃ s, feed NDEBUG empty
            (text "{" ++ [quote] ++ text "a" ++ [quote] ++ text ":"
             ++ [quote] ++ text "{" ++ [quote] ++ text "}") = Done s
          ∧ serialized_objects_ s
            = [text "{" ++ [quote] ++ text "a" ++ [quote] ++ text ":"
               ++ [quote] ++ text "{" ++ [quote] ++ text "}"]
          ∧ depth_ s = 0%Z ∧ in_string_ s = false)
    ∧ (∃ s, feed NDEBUG empty
              (text "{" ++ [quote] ++ text "a" ++ [quote] ++ text ":") = Done s
            ∧ depth_ s = 1%Z ∧ in_string_ s = false)
    ∧ (∃ s, feed_all NDEBUG empty
              [text "{" ++ [quote] ++ text "a" ++ [quote] ++ text ":";
               [quote] ++ text "{" ++ [quote] ++ text "}"] = Done s
            ∧ serialized_objects_ s = []
            ∧ depth_ s = 2%Z ∧ in_string_ s = true).
Proof. run_framer. Qed.

(** C8.  Of the stream [{}[{}]] fed as one chunk the framer emits [{}]
    and then [[{}], a proper prefix of the second message that stops at
    an inner brace.  And the message made of the object with key [a] and
    the string value [}], arriving in two chunks of which the second
    begins with the opening quote of that string, is emitted up to the
    brace inside the string. *)
Theorem proper_prefix_is_emitted :
  ∀ NDEBUG : bool,
    (∃ s, feed NDEBUG empty (text "{}[{}]") = Done s
          ∧ serialized_objects_ s = [text "{}"; text "[{}"]
          ∧ buffer_ s = text "]")
    ∧ (∃ s, feed_all NDEBUG empty
              [text "{" ++ [quote] ++ text "a" ++ [quote] ++ text ":";
               [quote] ++ text "}" ++ [quote] ++ text "}"] = Done s
            ∧ serialized_objects_ s
              = [text "{" ++ [quote] ++ text "a" ++ [quote] ++ text ":" ++ [quote] ++ text "}"]
            ∧ buffer_ s = [quote] ++ text "}"
            ∧ in_string_ s = true).
Proof. run_framer. Qed.

(** * Properties of the client call table *)

Import Client.

Section CallTable.

Variable message : error_code → string.

Lemma to_uint32_to_int id :
  (0 ≤ id < 2 ^ 32)%Z → to_uint32 (to_int id) = id.
Proof.
  unfold to_uint32, to_int. intros H.
  destruct (decide (id < 2 ^ 31)%Z).
  - rewrite (Z.mod_small (id + 2 ^ 31)) by lia.
    rewrite Z.mod_small; lia.
  - replace ((id + 2 ^ 31) mod 2 ^ 32)%Z with (id - 2 ^ 31)%Z.
    + symmetry. apply (Z.mod_unique _ _ (-1)); lia.
    + apply (Z.mod_unique _ _ 1); lia.
Qed.

Lemma maybe_call_handler_absent id res ec c :
  pending_ c !! to_uint32 id = None →
  maybe_call_handler id res ec c = c.
Proof. intros H. unfold maybe_call_handler. by rewrite H. Qed.

Lemma maybe_call_handler_present id res ec c handler timer :
  pending_ c !! to_uint32 id = Some (handler, timer) →
  maybe_call_handler id res ec c
  = emit [TimerCancel (to_uint32 id); Invoke handler ec res]
      (set_pending (delete (to_uint32 id) (pending_ c)) c).
Proof. intros H. unfold maybe_call_handler. by rewrite H. Qed.

Lemma timeout_callback_absent id ec c :
  pending_ c !! id = None → timeout_callback message id ec c = c.
Proof.
  intros H. unfold timeout_callback. rewrite H. by destruct (is_operation_aborted ec).
Qed.

Lemma timeout_callback_present id ec c handler timer :
  is_operation_aborted ec = false →
  pending_ c !! id = Some (handler, timer) →
  timeout_callback message id ec c
  = emit [Invoke handler (make_error_code timeout)
            (STR (message (make_error_code timeout)))]
      (set_pending (delete id (pending_ c)) c).
Proof. intros Ha H. unfold timeout_callback. by rewrite Ha, H. Qed.

Lemma invocations_app es es' :
  invocations (es ++ es') = invocations es ++ invocations es'.
Proof. unfold invocations. apply omap_app. Qed.

Lemma effects_since_emit es c0 c :
  effects c0 = effects c → effects_since c0 (emit es c) = es.
Proof.
  intros H. unfold effects_since, emit. cbn [effects].
  rewrite H. by rewrite drop_app_length.
Qed.

(** A response that passes [verify_reponse] is an array of four
    elements. *)
Lemma verify_reponse_true resp :
  verify_reponse resp = Some true →
  ∃ tag idobj err res, resp = ARRAY [tag; idobj; err; res].
Proof.
  destruct resp as [| | | | | |ptr|]; try discriminate. cbn.
  destruct (decide (length ptr = 4)) as [H|]; [|discriminate].
  destruct ptr as [|a [|b [|c [|d [|]]]]]; try discriminate. eauto.
Qed.

Lemma dispatch_routed resp ec c id :
  response_id resp = Some id →
  ∃ i, to_uint32 i = id ∧
       dispatch resp ec c
       = Ok (if negb (is_nil (nth 2 (array_ptr resp) NIL))
             then maybe_call_handler i (nth 2 (array_ptr resp) NIL)
                    (make_error_code call_error) c
             else maybe_call_handler i (nth 3 (array_ptr resp) NIL)
                    (make_error_code success) c).
Proof.
  unfold response_id, dispatch.
  destruct (verify_reponse resp) as [[|]|]; try discriminate.
  destruct (as_int _) as [i|]; [|discriminate].
  intros [= <-]. exists i. split; [done|]. by destruct (negb _).
Qed.

End CallTable.

(** * The claims about the client *)

(** C2.  A client starts with timeout 0.  [async_call] touches a timer
    exactly when the timeout is greater than zero, and then the new
    entry has a wait outstanding; with timeout 0 it has none.  When the
    wait completes without having been cancelled and the entry is still
    in the table, the entry is erased and its completion is called with
    the timeout code and the message of that code as a string. *)
Theorem timer_is_armed_iff_timeout_is_positive
    (message : error_code → string) (c : client) :
  get_timeout new_client = 0%Z
  ∧ (∀ name args handler,
       let c' := async_call name args handler c in
       existsb arms_timer (effects_since c c') = (0 <? timeout_ c)%Z
       ∧ (pending_ c !! id_ c = None →
          pending_ c' !! id_ c
          = Some (handler, {| waiting := (0 <? timeout_ c)%Z |})))
  ∧ (∀ id ec handler timer,
       is_operation_aborted ec = false →
       pending_ c !! id = Some (handler, timer) →
       let c' := timeout_callback message id ec c in
       pending_ c' = delete id (pending_ c)
       ∧ pending_ c' !! id = None
       ∧ effects_since c c'
         = [Invoke handler (make_error_code timeout)
              (STR (message (make_error_code timeout)))]).
Proof.
  split; [reflexivity|]. split.
  - intros name args handler c'. subst c'. unfold async_call, effects_since.
    split.
    + destruct (pending_ c !! id_ c) eqn:Hp; cbn [pending_ timeout_];
        rewrite ?Hp; cbn [timeout_ set_pending];
        destruct (0 <? timeout_ c)%Z;
        unfold maybe_start_reading, async_timeout, emit, set_pending;
        cbn [reading_ effects timeout_ pending_];
        destruct (reading_ c); cbn [reading_ effects timeout_ pending_];
        rewrite <- ?app_assoc, drop_app_length; reflexivity.
    + intros Hp. cbn [pending_ timeout_]. rewrite Hp. cbn [timeout_ set_pending].
      destruct (0 <? timeout_ c)%Z;
        unfold maybe_start_reading, async_timeout, emit, set_pending;
        cbn [reading_ effects timeout_ pending_ id_];
        destruct (reading_ c); cbn [reading_ effects timeout_ pending_ id_];
        rewrite ?lookup_alter_eq, lookup_insert_eq; reflexivity.
  - intros id ec handler timer Ha Hp c'. subst c'.
    rewrite (timeout_callback_present message id ec c handler timer Ha Hp).
    cbn [pending_ emit set_pending]. split; [done|].
    split; [apply lookup_delete_eq|].
    by apply effects_since_emit.
Qed.

Lemma blocked_call_pending :
  pending_ blocked_call !! 0%Z = Some (7, {| waiting := true |}).
Proof. reflexivity. Qed.

Lemma timer_is_armed_iff_timeout_is_positive_witness :
  existsb arms_timer (effects_since new_client (async_call "echo" [] 3 new_client))
    = false
  ∧ pending_ (async_call "echo" [] 3 new_client) !! 0%Z
    = Some (3, {| waiting := false |})
  ∧ pending_ (timeout_callback (λ _, "Timeout") 0 (system_error 0) blocked_call) !! 0%Z
    = None
  ∧ effects_since blocked_call
      (timeout_callback (λ _, "Timeout") 0 (system_error 0) blocked_call)
    = [Invoke 7 (make_error_code timeout) (STR "Timeout")].
Proof.
  pose proof (timer_is_armed_iff_timeout_is_positive (λ _, "Timeout") new_client)
    as (_ & Hcall & _).
  destruct (Hcall "echo" [] 3) as [Harm Hentry].
  split; [exact Harm|]. split; [exact (Hentry eq_refl)|].
  pose proof (timer_is_armed_iff_timeout_is_positive (λ _, "Timeout") blocked_call)
    as (_ & _ & Hfire).
  destruct (Hfire 0%Z (system_error 0) 7 {| waiting := true |} eq_refl
              blocked_call_pending) as (_ & Hgone & Heff).
  split; [exact Hgone|exact Heff].
Defined.

(** Routing of the responses whose id [as<int>] can read.  A response
    that passes [verify_reponse] and whose id, read as an [int], is a
    key of the table makes [dispatch] erase that entry, cancel its timer
    and call its completion: with the success code and the result
    element when the error element is nil, with the call-error code and
    the error element otherwise. *)
Theorem response_is_routed_to_its_completion
    (c : client) (resp : object) (ec : error_code)
    (id : Z) (handler : async_call_handler_type) (timer : timer_type) :
  response_id resp = Some id →
  pending_ c !! id = Some (handler, timer) →
  let err := nth 2 (array_ptr resp) NIL in
  let res := nth 3 (array_ptr resp) NIL in
  ∃ c', dispatch resp ec c = Ok c'
        ∧ pending_ c' = delete id (pending_ c)
        ∧ pending_ c' !! id = None
        ∧ effects_since c c'
          = [TimerCancel id;
             if is_nil err
             then Invoke handler (make_error_code success) res
             else Invoke handler (make_error_code call_error) err].
Proof.
  intros Hid Hp err res.
  destruct (dispatch_routed resp ec c id Hid) as (i & <- & ->).
  fold err res. eexists. split; [reflexivity|].
  destruct (is_nil err); cbn [negb];
    rewrite (maybe_call_handler_present _ _ _ _ _ _ Hp);
    cbn [pending_ emit set_pending];
    (split; [done|]); (split; [apply lookup_delete_eq|]);
    by apply effects_since_emit.
Qed.

Lemma response_is_routed_to_its_completion_witness :
  (∃ c', dispatch (ARRAY [POSITIVE_INTEGER 1; POSITIVE_INTEGER 0; NIL; POSITIVE_INTEGER 42])
           (system_error 0) blocked_call = Ok c'
         ∧ pending_ c' !! 0%Z = None
         ∧ effects_since blocked_call c'
           = [TimerCancel 0; Invoke 7 (make_error_code success) (POSITIVE_INTEGER 42)])
  ∧ (∃ c', dispatch (ARRAY [POSITIVE_INTEGER 1; POSITIVE_INTEGER 0;
                            STR "Unknown function"; NIL])
             (system_error 0) blocked_call = Ok c'
           ∧ pending_ c' !! 0%Z = None
           ∧ effects_since blocked_call c'
             = [TimerCancel 0;
                Invoke 7 (make_error_code call_error) (STR "Unknown function")]).
Proof.
  split.
  - destruct (response_is_routed_to_its_completion blocked_call
                (ARRAY [POSITIVE_INTEGER 1; POSITIVE_INTEGER 0; NIL; POSITIVE_INTEGER 42])
                (system_error 0) 0%Z 7 {| waiting := true |} eq_refl blocked_call_pending)
      as (c' & Hd & _ & Hgone & Heff).
    exists c'. split; [exact Hd|]. split; [exact Hgone|exact Heff].
  - destruct (response_is_routed_to_its_completion blocked_call
                (ARRAY [POSITIVE_INTEGER 1; POSITIVE_INTEGER 0; STR "Unknown function"; NIL])
                (system_error 0) 0%Z 7 {| waiting := true |} eq_refl blocked_call_pending)
      as (c' & Hd & _ & Hgone & Heff).
    exists c'. split; [exact Hd|]. split; [exact Hgone|exact Heff].
Defined.

(** C3.  The call made by a client whose counter stands at 2147483648
    is stored under that id, and the response to it, a well-formed
    response carrying that id, is not routed: [dispatch] reads the id
    with [as<int>], which throws for a value above [INT_MAX], before
    any look-up.  The entry stays in the table and its completion is
    not called. *)
Theorem response_to_an_id_above_INT_MAX_is_not_routed :
  pending_ (async_call "f" [] 7 half_way_client) !! 2147483648%Z
    = Some (7, {| waiting := false |})
  ∧ verify_reponse
      (ARRAY [POSITIVE_INTEGER 1; POSITIVE_INTEGER 2147483648; NIL; POSITIVE_INTEGER 42])
    = Some true
  ∧ response_id
      (ARRAY [POSITIVE_INTEGER 1; POSITIVE_INTEGER 2147483648; NIL; POSITIVE_INTEGER 42])
    = None
  ∧ dispatch
      (ARRAY [POSITIVE_INTEGER 1; POSITIVE_INTEGER 2147483648; NIL; POSITIVE_INTEGER 42])
      (system_error 0) (async_call "f" [] 7 half_way_client)
    = Throw.
Proof. repeat split. Qed.

(** C9.  A four-element response tagged 1 whose error and result are
    both nil passes [verify_reponse]; [dispatch] does not close the
    connection but takes the success branch with the nil result, so the
    completion stored under the id is called with the success code and
    nil. *)
Theorem response_with_nil_error_and_nil_result_succeeds
    (c : client) (tag idobj : object) (ec : error_code) (id : Z) :
  as_int tag = Some (rpc_tag response) →
  as_int idobj = Some id →
  let resp := ARRAY [tag; idobj; NIL; NIL] in
  let c' := maybe_call_handler id NIL (make_error_code success) c in
  verify_reponse resp = Some true
  ∧ dispatch resp ec c = Ok c'
  ∧ (∀ e, e ∈ effects_since c c' →
          e ≠ SocketCancel ∧ e ≠ SocketShutdown ∧ e ≠ SocketClose)
  ∧ (∀ handler timer,
       pending_ c !! to_uint32 id = Some (handler, timer) →
       pending_ c' !! to_uint32 id = None
       ∧ effects_since c c'
         = [TimerCancel (to_uint32 id);
            Invoke handler (make_error_code success) NIL]).
Proof.
  intros Htag Hid resp c'.
  assert (Hv : verify_reponse resp = Some true).
  { unfold resp, verify_reponse. cbn. by rewrite Htag. }
  split; [done|]. split.
  { unfold dispatch. rewrite Hv. cbn. by rewrite Hid. }
  split.
  - intros e. unfold c'.
    destruct (pending_ c !! to_uint32 id) as [[handler timer]|] eqn:Hp.
    + rewrite (maybe_call_handler_present _ _ _ _ _ _ Hp).
      rewrite effects_since_emit by done.
      intros He. apply elem_of_cons in He as [->|He]; [done|].
      apply elem_of_cons in He as [->|He]; [done|].
      by apply elem_of_nil in He.
    + rewrite (maybe_call_handler_absent _ _ _ _ Hp).
      unfold effects_since. rewrite drop_all. by intros ?%elem_of_nil.
  - intros handler timer Hp. unfold c'.
    rewrite (maybe_call_handler_present _ _ _ _ _ _ Hp).
    cbn [pending_ emit set_pending].
    split; [apply lookup_delete_eq|]. by apply effects_since_emit.
Qed.

Lemma response_with_nil_error_and_nil_result_succeeds_witness :
  dispatch (ARRAY [POSITIVE_INTEGER 1; POSITIVE_INTEGER 0; NIL; NIL])
    (system_error 0) blocked_call
  = Ok (maybe_call_handler 0 NIL (make_error_code success) blocked_call)
  ∧ effects_since blocked_call
      (maybe_call_handler 0 NIL (make_error_code success) blocked_call)
    = [TimerCancel 0; Invoke 7 (make_error_code success) NIL].
Proof.
  destruct (response_with_nil_error_and_nil_result_succeeds blocked_call
              (POSITIVE_INTEGER 1) (POSITIVE_INTEGER 0) (system_error 0) 0%Z
              eq_refl eq_refl) as (_ & Hd & _ & Hcall).
  split; [exact Hd|].
  destruct (Hcall 7 {| waiting := true |} blocked_call_pending) as [_ Heff].
  exact Heff.
Defined.

(** C7, as stated, fails: the completion of a call whose write fails
    with the transport's code 32 is called with that very code, not
    with a write-error code of packio. *)
Lemma failed_write_is_not_reported_as_write_error :
  invocations
    (effects_since blocked_call
       (write_callback (λ _, "Broken pipe") 0 (system_error 32) blocked_call))
    = [(7, system_error 32, STR "Broken pipe")]
  ∧ ∀ v, (7, make_error_code write_error, v)
         ∉ invocations
             (effects_since blocked_call
                (write_callback (λ _, "Broken pipe") 0 (system_error 32) blocked_call)).
Proof.
  split; [reflexivity|].
  intros v H. vm_compute in H.
  apply elem_of_cons in H as [H|H]; [discriminate H|].
  by apply elem_of_nil in H.
Qed.

(** C7, amended.  When the write of a call's request fails and the
    entry is still in the table, the client erases the entry, cancels
    its timer and calls the completion with the error code of the write
    itself and the message of that code as a string. *)
Theorem failed_write_passes_its_error_to_the_completion
    (message : error_code → string) (c : client) (id : Z) (ec : error_code)
    (handler : async_call_handler_type) (timer : timer_type) :
  (0 ≤ id < 2 ^ 32)%Z →
  is_error ec = true →
  pending_ c !! id = Some (handler, timer) →
  let c' := write_callback message id ec c in
  pending_ c' = delete id (pending_ c)
  ∧ pending_ c' !! id = None
  ∧ effects_since c c' = [TimerCancel id; Invoke handler ec (STR (message ec))].
Proof.
  intros Hid Hec Hp c'. subst c'. unfold write_callback. rewrite Hec.
  rewrite <- (to_uint32_to_int id Hid) in Hp.
  rewrite (maybe_call_handler_present _ _ _ _ _ _ Hp).
  rewrite (to_uint32_to_int id Hid).
  cbn [pending_ emit set_pending].
  split; [done|]. split; [apply lookup_delete_eq|]. by apply effects_since_emit.
Qed.

Lemma failed_write_passes_its_error_to_the_completion_witness :
  pending_ (write_callback (λ _, "Broken pipe") 0 (system_error 32) blocked_call) !! 0%Z
    = None
  ∧ effects_since blocked_call
      (write_callback (λ _, "Broken pipe") 0 (system_error 32) blocked_call)
    = [TimerCancel 0; Invoke 7 (system_error 32) (STR "Broken pipe")].
Proof.
  destruct (failed_write_passes_its_error_to_the_completion (λ _, "Broken pipe")
              blocked_call 0%Z (system_error 32) 7 {| waiting := true |})
    as (_ & Hgone & Heff).
  - unfold Z.le, Z.lt. split; [discriminate|reflexivity].
  - reflexivity.
  - exact blocked_call_pending.
  - split; [exact Hgone|exact Heff].
Defined.

Section Consumption.

Variable message : error_code → string.

Lemma consume_absent p id c :
  (0 ≤ id < 2 ^ 32)%Z → goes_for p id →
  pending_ c !! id = None →
  consume message p id c = Ok c.
Proof.
  intros Hid Hgo Hp. destruct p as [ec|resp ec|ec]; cbn in *.
  - by rewrite timeout_callback_absent.
  - destruct (dispatch_routed resp ec c id Hgo) as (i & <- & ->).
    rewrite !maybe_call_handler_absent by done. by destruct (negb _).
  - unfold write_callback. rewrite Hgo.
    rewrite maybe_call_handler_absent; [done|]. by rewrite to_uint32_to_int.
Qed.

Lemma consume_present p id c handler timer :
  (0 ≤ id < 2 ^ 32)%Z → goes_for p id →
  pending_ c !! id = Some (handler, timer) →
  ∃ c' ec v,
    consume message p id c = Ok c'
    ∧ pending_ c' = delete id (pending_ c)
    ∧ pending_ c' !! id = None
    ∧ invocations (effects_since c c') = [(handler, ec, v)].
Proof.
  intros Hid Hgo Hp. destruct p as [ec|resp ec|ec]; cbn in *.
  - rewrite (timeout_callback_present message id ec c handler timer Hgo Hp).
    eexists _, _, _. split; [reflexivity|]. cbn [pending_ emit set_pending].
    split; [done|]. split; [apply lookup_delete_eq|].
    by rewrite effects_since_emit.
  - destruct (dispatch_routed resp ec c id Hgo) as (i & <- & ->).
    rewrite !(maybe_call_handler_present _ _ _ _ _ _ Hp).
    destruct (negb _); eexists _, _, _; (split; [reflexivity|]);
      cbn [pending_ emit set_pending];
      (split; [done|]); (split; [apply lookup_delete_eq|]);
      by rewrite effects_since_emit.
  - unfold write_callback. rewrite Hgo.
    rewrite <- (to_uint32_to_int id Hid) in Hp.
    rewrite (maybe_call_handler_present _ _ _ _ _ _ Hp).
    rewrite (to_uint32_to_int id Hid).
    eexists _, _, _. split; [reflexivity|]. cbn [pending_ emit set_pending].
    split; [done|]. split; [apply lookup_delete_eq|].
    by rewrite effects_since_emit.
Qed.

(** A path run on its own is its two halves one after the other. *)
Lemma consume_as_steps p id c :
  (0 ≤ id < 2 ^ 32)%Z → goes_for p id →
  ∃ c', consume message p id c = Ok c'
        ∧ run_race message id [true; true] (Waiting p) Finished c
          = (Finished, Finished, c').
Proof.
  intros Hid Hgo. cbn [run_race thread_step]. unfold take_entry.
  destruct (pending_ c !! id) as [[handler timer]|] eqn:Hp.
  - cbn [thread_step]. eexists. split; [|reflexivity].
    destruct p as [ec|resp ec|ec]; cbn in *.
    + by rewrite (timeout_callback_present message id ec c handler timer Hgo Hp).
    + destruct (dispatch_routed resp ec c id Hgo) as (i & <- & ->).
      rewrite !(maybe_call_handler_present _ _ _ _ _ _ Hp). by destruct (negb _).
    + unfold write_callback. rewrite Hgo.
      rewrite <- (to_uint32_to_int id Hid) in Hp.
      rewrite (maybe_call_handler_present _ _ _ _ _ _ Hp).
      by rewrite (to_uint32_to_int id Hid).
  - cbn [thread_step]. exists c. split; [|reflexivity]. by apply consume_absent.
Qed.

Lemma race_inv_sym c0 id handler t1 t2 c :
  race_inv c0 id handler t1 t2 c → race_inv c0 id handler t2 t1 c.
Proof.
  intros [Hlen [(timer & p1 & p2 & -> & -> & H)|[(Hp & Hi & [H|H])|(Hp & H1 & H2 & H)]]];
    (split; [done|]).
  - left. by exists timer, p2, p1.
  - right; left. eauto.
  - right; left. eauto.
  - right; right. eauto.
Qed.

Lemma deliver_effects p id handler timer c :
  pending_ (deliver message p id (handler, timer) c) = pending_ c
  ∧ ∃ es ec v, effects (deliver message p id (handler, timer) c) = effects c ++ es
               ∧ invocations es = [(handler, ec, v)].
Proof.
  destruct p as [ec|resp ec|ec]; cbn [deliver fst].
  - split; [done|]. by eexists _, _, _.
  - destruct (negb _); (split; [done|]); by eexists _, _, _.
  - split; [done|]. by eexists _, _, _.
Qed.

Lemma effects_since_app c0 c es :
  length (effects c0) ≤ length (effects c) →
  drop (length (effects c0)) (effects c ++ es) = effects_since c0 c ++ es.
Proof. intros H. unfold effects_since. by rewrite drop_app_le. Qed.

Lemma race_inv_step c0 id handler t1 t2 c :
  race_inv c0 id handler t1 t2 c →
  race_inv c0 id handler (thread_step message id t1 c).1 t2
    (thread_step message id t1 c).2.
Proof.
  intros [Hlen [(timer & p1 & p2 & -> & -> & Hp & Hi)|[(Hp & Hi & [H|H])|(Hp & H1 & H2 & H)]]].
  - cbn [thread_step]. unfold take_entry. rewrite Hp. cbn [fst snd].
    split; [done|]. right; left. cbn [pending_ set_pending].
    split; [apply lookup_delete_eq|]. split; [done|].
    left. by exists p1, timer.
  - destruct H as (p & timer & -> & Hn). cbn [thread_step fst snd].
    destruct (deliver_effects p id handler timer c) as (Hpend & es & ec & v & He & Hinv).
    split; [rewrite He, length_app; lia|].
    right; right. rewrite Hpend. split; [done|]. split; [done|]. split; [done|].
    exists ec, v. unfold effects_since at 1. rewrite He.
    rewrite effects_since_app by done. by rewrite invocations_app, Hi, Hinv.
  - destruct H as (p & timer & -> & Hn).
    destruct t1 as [p1|p1 e1|]; [|done|].
    + cbn [thread_step]. unfold take_entry. rewrite Hp. cbn [fst snd].
      split; [done|]. right; left. split; [done|]. split; [done|].
      right. by exists p, timer.
    + cbn [thread_step fst snd]. split; [done|]. right; left.
      split; [done|]. split; [done|]. right. by exists p, timer.
  - destruct t1 as [p1|p1 e1|]; [|done|].
    + cbn [thread_step]. unfold take_entry. rewrite Hp. cbn [fst snd].
      split; [done|]. right; right. done.
    + cbn [thread_step fst snd]. split; [done|]. right; right. done.
Qed.

Lemma race_inv_run c0 id handler schedule t1 t2 c :
  race_inv c0 id handler t1 t2 c →
  race_inv c0 id handler
    (run_race message id schedule t1 t2 c).1.1
    (run_race message id schedule t1 t2 c).1.2
    (run_race message id schedule t1 t2 c).2.
Proof.
  revert t1 t2 c. induction schedule as [|b schedule IH]; intros t1 t2 c Hinv; [done|].
  destruct b; cbn [run_race].
  - apply race_inv_step in Hinv.
    destruct (thread_step message id t1 c) as [t1' c']. by apply IH.
  - apply race_inv_sym, race_inv_step, race_inv_sym in Hinv.
    destruct (thread_step message id t2 c) as [t2' c']. by apply IH.
Qed.

Lemma race_inv_init c id handler timer p1 p2 :
  pending_ c !! id = Some (handler, timer) →
  race_inv c id handler (Waiting p1) (Waiting p2) c.
Proof.
  intros Hp. split; [done|]. left. exists timer, p1, p2.
  repeat split; [done|]. unfold effects_since. by rewrite drop_all.
Qed.

End Consumption.

(** C4.  Each of the three paths, when it finds the entry, erases it
    and calls its completion once, and when it does not find it leaves
    the client as it is and calls nothing.  So of two paths that go for
    the same entry one after the other, the first delivers its outcome
    and the second delivers none.  The same holds when the two paths
    run as threads whose look-ups (done under the table's mutex) and
    calls (done after unlocking) are interleaved in any order: once
    both have finished the entry is gone and its completion has been
    called exactly once. *)
Theorem entry_is_consumed_by_exactly_one_path
    (message : error_code → string) (c : client) (id : Z) :
  (0 ≤ id < 2 ^ 32)%Z →
  (∀ p, goes_for p id →
     (pending_ c !! id = None → consume message p id c = Ok c)
     ∧ (∀ handler timer,
          pending_ c !! id = Some (handler, timer) →
          ∃ c' ec v,
            consume message p id c = Ok c'
            ∧ pending_ c' = delete id (pending_ c)
            ∧ pending_ c' !! id = None
            ∧ invocations (effects_since c c') = [(handler, ec, v)])
     ∧ (∃ c', consume message p id c = Ok c'
              ∧ run_race message id [true; true] (Waiting p) Finished c
                = (Finished, Finished, c')))
  ∧ (∀ p1 p2 handler timer,
       goes_for p1 id → goes_for p2 id →
       pending_ c !! id = Some (handler, timer) →
       (∃ c1 ec v,
          consume message p1 id c = Ok c1
          ∧ consume message p2 id c1 = Ok c1
          ∧ pending_ c1 !! id = None
          ∧ invocations (effects_since c c1) = [(handler, ec, v)])
       ∧ (∀ schedule c',
            run_race message id schedule (Waiting p1) (Waiting p2) c
              = (Finished, Finished, c') →
            pending_ c' !! id = None
            ∧ ∃ ec v, invocations (effects_since c c') = [(handler, ec, v)])).
Proof.
  intros Hid. split.
  - intros p Hgo. split; [|split].
    + by apply consume_absent.
    + intros handler timer Hp. by apply (consume_present message p id c handler timer).
    + by apply consume_as_steps.
  - intros p1 p2 handler timer Hgo1 Hgo2 Hp. split.
    + destruct (consume_present message p1 id c handler timer Hid Hgo1 Hp)
        as (c1 & ec & v & H1 & _ & Hgone & Hinv).
      exists c1, ec, v. split; [done|]. split; [|done].
      by apply consume_absent.
    + intros schedule c' Hrun.
      pose proof (race_inv_run message c id handler schedule _ _ c
                    (race_inv_init c id handler timer p1 p2 Hp)) as Hinv.
      rewrite Hrun in Hinv. cbn [fst snd] in Hinv.
      destruct Hinv as [_ [(? & ? & ? & [=] & _)|[(_ & _ & [H|H])|(Hgone & _ & _ & H)]]].
      * by destruct H as (? & ? & [=] & _).
      * by destruct H as (? & ? & [=] & _).
      * done.
Qed.

Lemma entry_is_consumed_by_exactly_one_path_witness :
  let reply := ARRAY [POSITIVE_INTEGER 1; POSITIVE_INTEGER 0; NIL; POSITIVE_INTEGER 42] in
  let message := λ _ : error_code, "Timeout" in
  let by_reply := ResponseArrives reply (system_error 0) in
  let by_timer := TimerFires (system_error 0) in
  (∃ c1 ec v,
     consume message by_reply 0 blocked_call = Ok c1
     ∧ consume message by_timer 0 c1 = Ok c1
     ∧ pending_ c1 !! 0%Z = None
     ∧ invocations (effects_since blocked_call c1) = [(7, ec, v)])
  ∧ (∃ ec v,
       invocations
         (effects_since blocked_call
            (run_race message 0 [true; false; false; true]
               (Waiting by_timer) (Waiting by_reply) blocked_call).2)
       = [(7, ec, v)]).
Proof.
  intros reply message by_reply by_timer.
  assert (Hid : (0 ≤ 0 < 2 ^ 32)%Z).
  { unfold Z.le, Z.lt. split; [discriminate|reflexivity]. }
  pose proof (entry_is_consumed_by_exactly_one_path message blocked_call 0%Z Hid)
    as [_ Hrace].
  split.
  - exact (proj1 (Hrace by_reply by_timer 7 {| waiting := true |}
                    eq_refl eq_refl blocked_call_pending)).
  - exact (proj2 (proj2 (Hrace by_timer by_reply 7 {| waiting := true |}
                           eq_refl eq_refl blocked_call_pending)
                    [true; false; false; true] _ eq_refl)).
Defined.

(** The two orders of that race, evaluated: the response first gives
    the result, the timer first gives the timeout, and in both the
    completion is called once. *)
Example response_and_timer_race :
  let reply := ARRAY [POSITIVE_INTEGER 1; POSITIVE_INTEGER 0; NIL; POSITIVE_INTEGER 42] in
  let message := λ _ : error_code, "Timeout" in
  let response_first :=
    timeout_callback message 0 (system_error 0)
      (maybe_call_handler 0 (POSITIVE_INTEGER 42) (make_error_code success) blocked_call) in
  let timer_first :=
    maybe_call_handler 0 (POSITIVE_INTEGER 42) (make_error_code success)
      (timeout_callback message 0 (system_error 0) blocked_call) in
  dispatch reply (system_error 0) blocked_call
    = Ok (maybe_call_handler 0 (POSITIVE_INTEGER 42) (make_error_code success) blocked_call)
  ∧ invocations (effects_since blocked_call response_first)
    = [(7, make_error_code success, POSITIVE_INTEGER 42)]
  ∧ invocations (effects_since blocked_call timer_first)
    = [(7, make_error_code timeout, STR "Timeout")].
Proof. repeat split. Qed.

(** * Further properties of the framer *)

Section FramerInvariants.

Variable NDEBUG : bool.

(** One iteration either breaks, or handles the token that
    [find_first_of] found inside the view. *)
Lemma parse_step_cases s token_pos :
  parse_step NDEBUG s token_pos = Break
  ∨ ∃ p : nat,
      find_first_of (buffer_ s) (tokens_ s) (size_t (token_pos + 1)) = Z.of_nat p
      ∧ Z.of_nat p ≠ npos
      ∧ (size_t (token_pos + 1) ≤ Z.of_nat p)%Z
      ∧ p < length (buffer_ s)
      ∧ char_at (buffer_ s) p ∈ tokens_ s
      ∧ parse_step NDEBUG s token_pos = token_action NDEBUG s p.
Proof.
  pose proof (size_t_range (token_pos + 1)) as Hr.
  unfold parse_step.
  destruct (find_first_of_cases (buffer_ s) (tokens_ s) (size_t (token_pos + 1)))
    as [[-> _]|(k & Hk & Hlt & Hin & _)]; [lia| |].
  { left. by rewrite Z.eqb_refl. }
  rewrite Hk.
  destruct (size_t (token_pos + 1) + Z.of_nat k =? npos)%Z eqn:E; [by left|].
  right. exists (Z.to_nat (size_t (token_pos + 1)) + k).
  replace (Z.of_nat (Z.to_nat (size_t (token_pos + 1)) + k))
    with (size_t (token_pos + 1) + Z.of_nat k)%Z by lia.
  apply Z.eqb_neq in E. repeat split; try done; try lia.
  unfold token_action.
  replace (Z.to_nat (size_t (token_pos + 1) + Z.of_nat k))
    with (Z.to_nat (size_t (token_pos + 1)) + k) by lia.
  replace (Z.to_nat (size_t (token_pos + 1) + Z.of_nat k + 1))
    with (S (Z.to_nat (size_t (token_pos + 1)) + k)) by lia.
  replace (size_t (token_pos + 1) + Z.of_nat k
           - (size_t (token_pos + 1) + Z.of_nat k + 1))%Z with (-1)%Z by lia.
  replace (Z.of_nat (Z.to_nat (size_t (token_pos + 1)) + k))
    with (size_t (token_pos + 1) + Z.of_nat k)%Z by lia.
  reflexivity.
Qed.

Lemma resize_within raw n : n ≤ length raw → resize raw n = take n raw.
Proof.
  intros H. unfold resize. replace (n - length raw) with 0 by lia.
  cbn. by rewrite app_nil_r.
Qed.

Lemma store_object_view s p :
  well_formed s → p < length (buffer_ s) →
  well_formed (store_object (S p) s)
  ∧ serialized_objects_ (store_object (S p) s)
    = serialized_objects_ s ++ [take (S p) (buffer_ s)]
  ∧ buffer_ (store_object (S p) s) = drop (S p) (buffer_ s).
Proof.
  unfold well_formed, buffer_. intros Hwf Hp.
  rewrite length_take in Hp. cbn [store_object buffer_len raw_buffer_ serialized_objects_].
  split; [rewrite length_drop; lia|]. split.
  - rewrite resize_within by lia. rewrite take_take.
    by replace (S p `min` buffer_len s) with (S p) by lia.
  - rewrite take_drop_commute. f_equal. f_equal. lia.
Qed.

(** Handling one token keeps the view inside the storage and the
    setting of [initialize], and moves bytes only from the front of the
    view to the back of the queue. *)
Lemma token_action_conserves s p s' token_pos' :
  well_formed s → p < length (buffer_ s) →
  token_action NDEBUG s p = Continue s' token_pos' →
  well_formed s'
  ∧ first_char_ s' = first_char_ s ∧ last_char_ s' = last_char_ s
  ∧ tokens_ s' = tokens_ s
  ∧ ∃ new, serialized_objects_ s' = serialized_objects_ s ++ new
           ∧ concat new ++ buffer_ s' = buffer_ s
           ∧ Forall (λ o, ∃ body, o = body ++ [last_char_ s]) new.
Proof.
  intros Hwf Hp. unfold token_action.
  assert (Hsame : ∀ s1, well_formed s1 → buffer_ s1 = buffer_ s →
            first_char_ s1 = first_char_ s → last_char_ s1 = last_char_ s →
            tokens_ s1 = tokens_ s →
            serialized_objects_ s1 = serialized_objects_ s →
            well_formed s1
            ∧ first_char_ s1 = first_char_ s ∧ last_char_ s1 = last_char_ s
            ∧ tokens_ s1 = tokens_ s
            ∧ ∃ new, serialized_objects_ s1 = serialized_objects_ s ++ new
                     ∧ concat new ++ buffer_ s1 = buffer_ s
                     ∧ Forall (λ o, ∃ body, o = body ++ [last_char_ s]) new).
  { intros s1 H1 H2 H3 H4 H5 H6. repeat split; try done.
    exists []. rewrite app_nil_r. by repeat split. }
  destruct (Ascii.eqb _ quote && _); [intros [= <- <-]; by apply Hsame|].
  destruct (in_string_ s); [intros [= <- <-]; by apply Hsame|].
  destruct (Ascii.eqb _ (last_char_ s)) eqn:Hlast.
  - destruct (_ =? 0)%Z; intros [= <- <-]; [|by apply Hsame].
    destruct (store_object_view s p Hwf Hp) as (Hwf' & Hq & Hv).
    repeat split; try done.
    exists [take (S p) (buffer_ s)]. split; [done|]. split.
    + rewrite Hv. cbn. rewrite app_nil_r. apply take_drop.
    + constructor; [|done]. exists (take p (buffer_ s)).
      apply Ascii.eqb_eq in Hlast. rewrite <- Hlast.
      destruct (lookup_lt_is_Some_2 (buffer_ s) p Hp) as [c Hc].
      rewrite (char_at_lookup _ _ _ Hc). by apply take_S_r.
  - destruct (_ || _); [|done]. intros [= <- <-]. by apply Hsame.
Qed.

Lemma parse_loop_conserves fuel s token_pos s' :
  well_formed s →
  parse_loop NDEBUG fuel s token_pos = Done s' →
  well_formed s'
  ∧ first_char_ s' = first_char_ s ∧ last_char_ s' = last_char_ s
  ∧ tokens_ s' = tokens_ s
  ∧ ∃ new, serialized_objects_ s' = serialized_objects_ s ++ new
           ∧ concat new ++ buffer_ s' = buffer_ s
           ∧ Forall (λ o, ∃ body, o = body ++ [last_char_ s]) new.
Proof.
  revert s token_pos. induction fuel as [|fuel IH]; intros s token_pos Hwf; [done|].
  cbn [parse_loop].
  destruct (parse_step_cases s token_pos) as [->|(p & _ & _ & _ & Hp & _ & ->)].
  { intros [= <-]. repeat split; try done. exists []. rewrite app_nil_r. by repeat split. }
  destruct (token_action NDEBUG s p) as [|s1 tp1|] eqn:E; [|intros H|done].
  { intros [= <-]. repeat split; try done. exists []. rewrite app_nil_r. by repeat split. }
  apply token_action_conserves in E as (Hwf1 & Hf1 & Hl1 & Ht1 & new1 & Hq1 & Hv1 & Hall1);
    [|done|done].
  apply IH in H as (Hwf' & Hf' & Hl' & Ht' & new & Hq & Hv & Hall); [|done].
  repeat split; try congruence.
  exists (new1 ++ new). split; [by rewrite Hq, Hq1, app_assoc|]. split.
  - by rewrite concat_app, <- app_assoc, Hv, Hv1.
  - apply Forall_app. split; [done|]. by rewrite <- Hl1.
Qed.

(** [reserve_in_place_buffer(n)] leaves room for [n] bytes behind the
    view and changes neither the view nor anything but the storage. *)
Lemma reserve_in_place_buffer_spec s n :
  well_formed s →
  ∃ raw, reserve_in_place_buffer s n = set_raw_buffer raw s
         ∧ buffer_len s + n ≤ length raw
         ∧ take (buffer_len s) raw = buffer_ s
         ∧ (n ≤ in_place_buffer_capacity s → raw = raw_buffer_ s).
Proof.
  unfold well_formed, reserve_in_place_buffer, in_place_buffer_capacity, buffer_.
  intros Hwf. destruct (decide _) as [H|H].
  - exists (raw_buffer_ s). split; [by destruct s|]. split; [lia|]. done.
  - eexists. split; [reflexivity|]. unfold resize. split; [|split; [|lia]].
    + rewrite length_app, length_take, length_replicate. lia.
    + rewrite take_app_le by (rewrite length_take; lia).
      rewrite take_take. f_equal. lia.
Qed.

Lemma copy_at_view raw off data :
  off + length data ≤ length raw →
  length (copy_at raw off data) = length raw
  ∧ take (off + length data) (copy_at raw off data) = take off raw ++ data.
Proof.
  intros H. unfold copy_at. split.
  - rewrite !length_app, length_take, length_drop. lia.
  - rewrite app_assoc. rewrite take_app_length'; [done|].
    rewrite length_app, length_take. lia.
Qed.

End FramerInvariants.

Section FramerFeed.

Variable NDEBUG : bool.

Lemma initialize_opener c s :
  c ∈ openers →
  ∃ s', initialize NDEBUG c s = Some s'
        ∧ initialized s'
        ∧ buffer_len s' = buffer_len s
        ∧ raw_buffer_ s' = raw_buffer_ s
        ∧ serialized_objects_ s' = serialized_objects_ s.
Proof.
  intros Hin. unfold initialize, initialized.
  apply elem_of_cons in Hin as [->|Hin]; [eexists; split; [reflexivity|]; cbn; auto|].
  apply elem_of_cons in Hin as [->|Hin]; [eexists; split; [reflexivity|]; cbn; auto 10|].
  by apply elem_of_nil in Hin.
Qed.

Lemma initialized_last_char s :
  initialized s → last_char_ s = rbrace ∨ last_char_ s = rbracket.
Proof. intros [(_ & -> & _)|(_ & -> & _)]; auto. Qed.

Lemma ends_with_closer (new : list bytes) c :
  c = rbrace ∨ c = rbracket →
  Forall (λ o, ∃ body, o = body ++ [c]) new →
  Forall (λ o, ∃ body, o = body ++ [rbrace] ∨ o = body ++ [rbracket]) new.
Proof.
  intros Hc H. eapply Forall_impl; [exact H|]. intros o [body ->]. exists body.
  destruct Hc as [->| ->]; auto.
Qed.

(** What [feed] does to the bytes, for a scanner that satisfies
    [scanner_inv]. *)
Lemma feed_conserves s data s' :
  scanner_inv s →
  (Z.of_nat (buffer_len s + length data) ≤ SIZE_MAX)%Z →
  feed NDEBUG s data = Done s' →
  scanner_inv s'
  ∧ ∃ new, serialized_objects_ s' = serialized_objects_ s ++ new
           ∧ Forall (λ o, ∃ body, o = body ++ [rbrace] ∨ o = body ++ [rbracket]) new
           ∧ ((buffer_len s = 0 ∧ Forall (λ c, c ∉ openers) data
               ∧ new = [] ∧ buffer_len s' = 0)
              ∨ concat new ++ buffer_ s' = buffer_ s ++ data).
Proof.
  intros [Hwf Hinit] Hmax. unfold feed, in_place_buffer_consumed, incremental_parse.
  destruct (reserve_in_place_buffer_spec s (length data) Hwf)
    as (raw0 & -> & Hroom & Hview0 & _).
  cbn [buffer_len raw_buffer_ set_raw_buffer].
  destruct (copy_at_view raw0 (buffer_len s) data Hroom) as [Hlen1 Hview1].
  set (raw1 := copy_at raw0 (buffer_len s) data) in *.
  set (s1 := set_raw_buffer raw1 (set_raw_buffer raw0 s)).
  assert (Hwf1 : well_formed s1) by (unfold well_formed; cbn; lia).
  assert (Hv1 : buffer_ s1 = buffer_ s).
  { unfold buffer_ at 1. cbn [buffer_len raw_buffer_ set_raw_buffer s1].
    rewrite <- Hview0. unfold raw1, copy_at.
    apply take_app_length'. rewrite length_take. lia. }
  assert (Hstart : ∀ s2,
            buffer_len s2 = buffer_len s → raw_buffer_ s2 = raw1 →
            serialized_objects_ s2 = serialized_objects_ s → initialized s2 →
            parse_loop NDEBUG
              (S (buffer_len (set_buffer_len (buffer_len s2 + length data) s2)))
              (set_buffer_len (buffer_len s2 + length data) s2)
              (Z.of_nat (buffer_len s2)) = Done s' →
            scanner_inv s'
            ∧ ∃ new, serialized_objects_ s' = serialized_objects_ s ++ new
                ∧ Forall (λ o, ∃ body, o = body ++ [rbrace] ∨ o = body ++ [rbracket]) new
                ∧ ((buffer_len s = 0 ∧ Forall (λ c, c ∉ openers) data
                    ∧ new = [] ∧ buffer_len s' = 0)
                   ∨ concat new ++ buffer_ s' = buffer_ s ++ data)).
  { intros s2 Hb Hr Hq Hi2 H.
    apply parse_loop_conserves in H
      as (Hwf' & Hf' & Hl' & Ht' & new & Hq' & Hv' & Hall).
    2:{ unfold well_formed. cbn. rewrite Hb, Hr. lia. }
    cbn [first_char_ last_char_ tokens_ set_buffer_len serialized_objects_] in *.
    assert (Hi' : initialized s').
    { unfold initialized. rewrite Hf', Hl', Ht'. exact Hi2. }
    split; [by split|]. exists new. split; [by rewrite Hq', Hq|]. split.
    - apply (ends_with_closer new (last_char_ s2)); [|done].
      by apply initialized_last_char.
    - right. rewrite Hv'. unfold buffer_ at 1.
      cbn [buffer_len raw_buffer_ set_buffer_len]. rewrite Hb, Hr, Hview1.
      by rewrite Hview0. }
  destruct (decide (length data = 0)) as [Hz|Hnz].
  { intros [= <-]. split.
    - split; [done|]. intros Hne. apply Hinit in Hne. exact Hne.
    - exists []. rewrite app_nil_r. split; [done|]. split; [done|]. right.
      apply nil_length_inv in Hz. subst data. by rewrite Hv1, app_nil_r. }
  destruct (decide (buffer_len s = 0)) as [Hempty|Hne].
  - assert (Hdata : take (length data) (drop (buffer_len s) raw1) = data).
    { rewrite Hempty in Hview1 |- *. cbn in Hview1.
      by rewrite take_0 in Hview1. }
    rewrite Hdata.
    destruct (find_first_of_cases data [lbrace; lbracket] 0)
      as [[-> Hno]|(k & -> & Hk & Hin & _)]; [done| |].
    + rewrite Z.eqb_refl. intros [= <-]. split.
      * split; [done|]. intros Hne. cbn in Hne. lia.
      * exists []. rewrite app_nil_r. split; [done|]. split; [done|]. left.
        split; [done|]. split; [|done]. apply Forall_forall. intros c Hc.
        apply list_elem_of_lookup in Hc as [i Hi].
        rewrite <- (char_at_lookup _ _ _ Hi). apply Hno.
        apply lookup_lt_Some in Hi. cbn. lia.
    + destruct (0 + Z.of_nat k =? npos)%Z eqn:E.
      { apply Z.eqb_eq in E. unfold npos in E. cbn in Hk. lia. }
      cbn in Hin.
      replace (Z.to_nat (0 + Z.of_nat k)) with k by lia.
      destruct (initialize_opener (char_at data k) s1 Hin)
        as (s2 & -> & Hi2 & Hb2 & Hr2 & Hq2).
      apply Hstart; done.
  - apply (Hstart s1); try done. by apply Hinit.
Qed.

End FramerFeed.

Section Refinement.

Variable NDEBUG : bool.

Lemma find_first_of_here s chars (pos : nat) :
  pos < length s → char_at s pos ∈ chars →
  find_first_of s chars (Z.of_nat pos) = Z.of_nat pos.
Proof.
  intros Hlt Hin. unfold find_first_of. rewrite Nat2Z.id.
  destruct (lookup_lt_is_Some_2 s pos Hlt) as [c Hc].
  rewrite (drop_S _ _ _ Hc). rewrite (char_at_lookup _ _ _ Hc) in Hin.
  cbn. destruct (decide (c ∈ chars)); [|done]. lia.
Qed.

Lemma find_first_of_skip s chars (pos : nat) :
  pos < length s → char_at s pos ∉ chars →
  find_first_of s chars (Z.of_nat pos) = find_first_of s chars (Z.of_nat (S pos)).
Proof.
  intros Hlt Hin. unfold find_first_of. rewrite !Nat2Z.id.
  destruct (lookup_lt_is_Some_2 s pos Hlt) as [c Hc].
  rewrite (drop_S _ _ _ Hc). rewrite (char_at_lookup _ _ _ Hc) in Hin.
  cbn. destruct (decide (c ∈ chars)); [done|].
  destruct (list_find _ (drop (S pos) s)) as [[k x]|]; cbn; [lia|done].
Qed.

Lemma size_t_pos (pos : nat) :
  (Z.of_nat pos ≤ SIZE_MAX)%Z → size_t (Z.of_nat pos - 1 + 1) = Z.of_nat pos.
Proof.
  intros H. replace (Z.of_nat pos - 1 + 1)%Z with (Z.of_nat pos) by lia.
  apply size_t_small. lia.
Qed.

(** Behind a byte that is no token the search finds what it finds one
    position further on. *)
Lemma parse_step_skip s (pos : nat) :
  pos < length (buffer_ s) →
  (Z.of_nat (length (buffer_ s)) ≤ SIZE_MAX)%Z →
  char_at (buffer_ s) pos ∉ tokens_ s →
  parse_step NDEBUG s (Z.of_nat pos - 1) = parse_step NDEBUG s (Z.of_nat (S pos) - 1).
Proof.
  intros Hlt Hmax Hin. unfold parse_step.
  rewrite !size_t_pos by lia. by rewrite find_first_of_skip.
Qed.

Lemma parse_step_token s (pos : nat) :
  pos < length (buffer_ s) →
  (Z.of_nat (length (buffer_ s)) ≤ SIZE_MAX)%Z →
  char_at (buffer_ s) pos ∈ tokens_ s →
  parse_step NDEBUG s (Z.of_nat pos - 1) = token_action NDEBUG s pos.
Proof.
  intros Hlt Hmax Hin.
  destruct (parse_step_cases NDEBUG s (Z.of_nat pos - 1))
    as [Hb|(p & Hfind & _ & _ & _ & _ & ->)].
  - exfalso. revert Hb. unfold parse_step.
    rewrite size_t_pos by lia. rewrite find_first_of_here by done.
    assert ((Z.of_nat pos =? npos)%Z = false) as ->
      by (apply Z.eqb_neq; unfold npos; lia).
    repeat match goal with
           | |- context [if ?b then _ else _] => destruct b
           end; discriminate.
  - rewrite size_t_pos in Hfind by lia.
    rewrite find_first_of_here in Hfind by done.
    by apply Nat2Z.inj in Hfind as <-.
Qed.

Lemma parse_loop_same_step fuel s tp tp' :
  parse_step NDEBUG s tp = parse_step NDEBUG s tp' →
  parse_loop NDEBUG fuel s tp = parse_loop NDEBUG fuel s tp'.
Proof. intros H. destruct fuel; [done|]. cbn [parse_loop]. by rewrite H. Qed.

Lemma with_scan_id s : set_depth (depth_ s) (set_in_string (in_string_ s) s) = s.
Proof. by destruct s. Qed.

(** What the loop does at a token agrees with the forward pass. *)
Lemma token_action_scan_byte s pos esc' ins' d' :
  char_at (buffer_ s) pos ∈ tokens_ s →
  scan_byte NDEBUG (first_char_ s) (last_char_ s) (tokens_ s)
    (Nat.odd (backslashes_before (buffer_ s) pos), in_string_ s, depth_ s)
    (char_at (buffer_ s) pos) = Some (esc', ins', d') →
  token_action NDEBUG s pos
  = Continue (set_depth d' (set_in_string ins' s)) (Z.of_nat pos).
Proof.
  intros Hin. unfold scan_byte, token_action.
  rewrite bool_decide_eq_true_2 by done. rewrite is_escaped_odd.
  destruct (Ascii.eqb _ quote && _); [by intros [= <- <- <-]|].
  destruct (in_string_ s) eqn:Hs.
  { intros [= <- <- <-]. by rewrite <- Hs, with_scan_id. }
  destruct (Ascii.eqb _ (last_char_ s)).
  { destruct (_ =? 0)%Z; [done|]. intros [= <- <- <-]. by rewrite <- Hs. }
  destruct (_ || _); [|done]. intros [= <- <- <-]. by rewrite <- Hs.
Qed.

Lemma backslashes_before_S buf pos :
  Nat.odd (backslashes_before buf (S pos))
  = if Ascii.eqb (char_at buf pos) backslash
    then negb (Nat.odd (backslashes_before buf pos))
    else false.
Proof.
  cbn [backslashes_before]. destruct (Ascii.eqb _ _); [|done].
  by rewrite Nat.odd_succ, <- Nat.negb_odd.
Qed.

Lemma scan_byte_esc first last toks esc ins d c esc' ins' d' :
  scan_byte NDEBUG first last toks (esc, ins, d) c = Some (esc', ins', d') →
  esc' = if Ascii.eqb c backslash then negb esc else false.
Proof.
  unfold scan_byte.
  repeat match goal with
         | |- context [if ?b then _ else _] => destruct b
         end; by intros [= <- <- <-].
Qed.

(** The loop over a stretch of the view on which it stores no object
    and fails no assertion does what the forward pass does, in at most
    one iteration per byte. *)
Lemma parse_loop_refines_scan (n : nat) :
  ∀ s (from : nat) esc' ins' d',
    from + n ≤ length (buffer_ s) →
    (Z.of_nat (length (buffer_ s)) ≤ SIZE_MAX)%Z →
    scan NDEBUG (first_char_ s) (last_char_ s) (tokens_ s)
      (Nat.odd (backslashes_before (buffer_ s) from), in_string_ s, depth_ s)
      (take n (drop from (buffer_ s))) = Some (esc', ins', d') →
    esc' = Nat.odd (backslashes_before (buffer_ s) (from + n))
    ∧ ∃ k, k ≤ n ∧ ∀ fuel,
        parse_loop NDEBUG (k + fuel) s (Z.of_nat from - 1)
        = parse_loop NDEBUG fuel (set_depth d' (set_in_string ins' s))
            (Z.of_nat (from + n) - 1).
Proof.
  induction n as [|n IH]; intros s from esc' ins' d' Hlen Hmax.
  { rewrite take_0. cbn [scan]. intros [= <- <- <-].
    rewrite Nat.add_0_r. split; [done|]. exists 0. split; [done|]. intros fuel.
    by rewrite with_scan_id. }
  destruct (lookup_lt_is_Some_2 (buffer_ s) from) as [c Hc]; [lia|].
  rewrite (drop_S _ _ _ Hc). cbn [take scan].
  pose proof (char_at_lookup _ _ _ Hc) as Hchar. rewrite <- Hchar.
  destruct (scan_byte _ _ _ _ _ _) as [[[esc1 ins1] d1]|] eqn:E; [|done].
  pose proof (scan_byte_esc _ _ _ _ _ _ _ _ _ _ E) as Hesc1.
  rewrite <- backslashes_before_S in Hesc1. subst esc1.
  replace (from + S n) with (S from + n) by lia.
  destruct (decide (char_at (buffer_ s) from ∈ tokens_ s)) as [Hin|Hin].
  - pose proof (token_action_scan_byte s from _ _ _ Hin E) as Hact.
    intros Hscan.
    destruct (IH (set_depth d1 (set_in_string ins1 s)) (S from) esc' ins' d')
      as (Hesc & k & Hk & Hloop);
      [change (S from + n ≤ length (buffer_ s)); lia|exact Hmax|exact Hscan|].
    split; [exact Hesc|]. exists (S k). split; [lia|]. intros fuel.
    cbn [Nat.add parse_loop]. rewrite parse_step_token by (done || lia).
    rewrite Hact. rewrite <- Hloop. f_equal. lia.
  - assert (ins1 = in_string_ s ∧ d1 = depth_ s) as [-> ->].
    { revert E. unfold scan_byte. rewrite bool_decide_eq_false_2 by done.
      by intros [= _ <- <-]. }
    intros Hscan.
    destruct (IH s (S from) esc' ins' d') as (Hesc & k & Hk & Hloop);
      [lia|exact Hmax|exact Hscan|].
    split; [exact Hesc|]. exists k. split; [lia|]. intros fuel.
    rewrite <- Hloop. apply parse_loop_same_step. apply parse_step_skip; [lia|done|done].
Qed.

End Refinement.

Section Texts.

Variable NDEBUG : bool.

(** An induction principle for texts that reaches inside the lists. *)
Section NodeInd.
Variable P : node → Prop.
Hypothesis HFiller : ∀ c, P (Filler c).
Hypothesis HStr : ∀ body, P (Str body).
Hypothesis HBraces : ∀ inner, Forall P inner → P (Braces inner).
Hypothesis HBrackets : ∀ inner, Forall P inner → P (Brackets inner).

Fixpoint node_ind_nested (n : node) : P n :=
  let all :=
    fix all (l : list node) : Forall P l :=
      match l with
      | [] => @List.Forall_nil node P
      | n' :: l' => @List.Forall_cons node P n' l' (node_ind_nested n') (all l')
      end in
  match n with
  | Filler c => HFiller c
  | Str body => HStr body
  | Braces inner => HBraces inner (all inner)
  | Brackets inner => HBrackets inner (all inner)
  end.
End NodeInd.

Lemma encode_Braces inner :
  encode (Braces inner) = lbrace :: encode_all inner ++ [rbrace].
Proof. reflexivity. Qed.

Lemma encode_Brackets inner :
  encode (Brackets inner) = lbracket :: encode_all inner ++ [rbracket].
Proof. reflexivity. Qed.

Lemma valid_Braces inner : valid (Braces inner) = valid_all inner.
Proof. reflexivity. Qed.

Lemma valid_Brackets inner : valid (Brackets inner) = valid_all inner.
Proof. reflexivity. Qed.

(** The two settings of [initialize]. *)
Definition setting (first last : ascii) (toks : bytes) : Prop :=
  (first = lbrace ∧ last = rbrace ∧ toks = [lbrace; rbrace; quote])
  ∨ (first = lbracket ∧ last = rbracket ∧ toks = [lbracket; rbracket; quote]).

Lemma scan_app first last toks st l1 l2 :
  scan NDEBUG first last toks st (l1 ++ l2)
  = match scan NDEBUG first last toks st l1 with
    | Some st' => scan NDEBUG first last toks st' l2
    | None => None
    end.
Proof.
  revert st. induction l1 as [|c l1 IH]; intros st; [done|].
  cbn [app scan]. by destruct (scan_byte _ _ _ _ _ _).
Qed.

Section Setting.

Variables (first last : ascii) (toks : bytes).
Hypothesis Hset : setting first last toks.

Lemma setting_tokens c :
  c ∈ toks → c ∈ [lbrace; rbrace; lbracket; rbracket; quote; backslash].
Proof.
  destruct Hset as [(_ & _ & ->)|(_ & _ & ->)]; intros H;
    repeat (apply elem_of_cons in H as [->|H]; [repeat constructor|]);
    by apply elem_of_nil in H.
Qed.

Lemma setting_quote : bool_decide (quote ∈ toks) = true.
Proof. destruct Hset as [(_ & _ & ->)|(_ & _ & ->)]; reflexivity. Qed.

Lemma setting_backslash : bool_decide (backslash ∈ toks) = false.
Proof. destruct Hset as [(_ & _ & ->)|(_ & _ & ->)]; reflexivity. Qed.

Lemma scan_byte_backslash esc ins d :
  scan_byte NDEBUG first last toks (esc, ins, d) backslash = Some (negb esc, ins, d).
Proof. unfold scan_byte. by rewrite setting_backslash. Qed.

Lemma scan_byte_escaped c d :
  scan_byte NDEBUG first last toks (true, true, d) c = Some (false, true, d).
Proof.
  unfold scan_byte. cbn [negb]. rewrite andb_false_r.
  by destruct (bool_decide _), (Ascii.eqb c backslash).
Qed.

Lemma scan_byte_plain c d :
  c ≠ quote → c ≠ backslash →
  scan_byte NDEBUG first last toks (false, true, d) c = Some (false, true, d).
Proof.
  intros Hq Hb. unfold scan_byte.
  apply Ascii.eqb_neq in Hq, Hb. rewrite Hq, Hb. cbn.
  by destruct (bool_decide _).
Qed.

(** Inside a string every character or escaped character leaves the
    state as it is. *)
Lemma scan_item d i :
  item_ok i →
  scan NDEBUG first last toks (false, true, d) (encode_item i)
  = Some (false, true, d).
Proof.
  destruct i as [c|c]; cbn [item_ok encode_item scan].
  - intros [Hq Hb]. by rewrite scan_byte_plain.
  - intros _. rewrite scan_byte_backslash. cbn [negb]. by rewrite scan_byte_escaped.
Qed.

Lemma scan_body d body :
  Forall item_ok body →
  scan NDEBUG first last toks (false, true, d) (concat (map encode_item body))
  = Some (false, true, d).
Proof.
  induction 1 as [|i body Hi _ IH]; [done|].
  cbn [map concat]. by rewrite scan_app, scan_item.
Qed.

Lemma scan_quote ins d :
  scan_byte NDEBUG first last toks (false, ins, d) quote = Some (false, negb ins, d).
Proof. unfold scan_byte. by rewrite setting_quote. Qed.

Lemma scan_filler d c :
  c ∉ [lbrace; rbrace; lbracket; rbracket; quote; backslash] →
  scan_byte NDEBUG first last toks (false, false, d) c = Some (false, false, d).
Proof.
  intros Hc. unfold scan_byte.
  rewrite bool_decide_eq_false_2 by (intros H; by apply Hc, setting_tokens).
  assert (c ≠ backslash) as Hb by (intros ->; apply Hc; repeat constructor).
  apply Ascii.eqb_neq in Hb. by rewrite Hb.
Qed.

(** A bracket of the message's own kind moves the depth; a bracket of
    the other kind is no token. *)
Lemma scan_open d (opener : ascii) :
  opener ∈ openers →
  scan_byte NDEBUG first last toks (false, false, d) opener
  = Some (false, false, if Ascii.eqb opener first then (d + 1)%Z else d).
Proof.
  intros Hin. apply elem_of_cons in Hin as [->|Hin];
    [|apply elem_of_cons in Hin as [->|Hin]; [|by apply elem_of_nil in Hin]];
    destruct Hset as [(-> & -> & ->)|(-> & -> & ->)]; reflexivity.
Qed.

Definition closer_of (opener : ascii) : ascii :=
  if Ascii.eqb opener lbrace then rbrace else rbracket.

Lemma scan_close d (opener : ascii) :
  opener ∈ openers → (1 ≤ d)%Z →
  scan_byte NDEBUG first last toks
    (false, false, if Ascii.eqb opener first then (d + 1)%Z else d) (closer_of opener)
  = Some (false, false, d).
Proof.
  intros Hin Hd. apply elem_of_cons in Hin as [->|Hin];
    [|apply elem_of_cons in Hin as [->|Hin]; [|by apply elem_of_nil in Hin]];
    destruct Hset as [(-> & -> & ->)|(-> & -> & ->)]; cbn; try reflexivity.
  - destruct (d + 1 - 1 =? 0)%Z eqn:E; [lia|]. do 3 f_equal. lia.
  - destruct (d + 1 - 1 =? 0)%Z eqn:E; [lia|]. do 3 f_equal. lia.
Qed.

(** A text leaves the state of the forward pass as it found it, at
    any depth from 1 on. *)
Lemma scan_text n :
  ∀ d, (1 ≤ d)%Z → valid n →
    scan NDEBUG first last toks (false, false, d) (encode n) = Some (false, false, d).
Proof.
  induction n as [c|body|inner IH|inner IH] using node_ind_nested; intros d Hd Hv.
  - cbn [encode scan]. cbn in Hv. by rewrite scan_filler.
  - cbn [encode scan]. cbn in Hv. rewrite scan_quote. cbn [negb].
    rewrite scan_app, scan_body by done. cbn [scan]. by rewrite scan_quote.
  - rewrite encode_Braces. rewrite valid_Braces in Hv. cbn [scan].
    rewrite (scan_open d lbrace) by repeat constructor.
    rewrite scan_app.
    assert (Hinner : ∀ d', (1 ≤ d')%Z →
              scan NDEBUG first last toks (false, false, d') (encode_all inner)
              = Some (false, false, d')).
    { clear Hd d. induction IH as [|n inner Hn _ IHl]; intros d Hd; [done|].
      cbn [encode_all]. cbn [valid_all] in Hv. destruct Hv as [Hv1 Hv2].
      rewrite scan_app, Hn by done. by apply IHl. }
    rewrite Hinner by (destruct (Ascii.eqb _ _); lia).
    cbn [scan].
    assert (Hclose := scan_close d lbrace ltac:(repeat constructor) Hd).
    change (closer_of lbrace) with rbrace in Hclose. by rewrite Hclose.
  - rewrite encode_Brackets. rewrite valid_Brackets in Hv. cbn [scan].
    rewrite (scan_open d lbracket) by repeat constructor.
    rewrite scan_app.
    assert (Hinner : ∀ d', (1 ≤ d')%Z →
              scan NDEBUG first last toks (false, false, d') (encode_all inner)
              = Some (false, false, d')).
    { clear Hd d. induction IH as [|n inner Hn _ IHl]; intros d Hd; [done|].
      cbn [encode_all]. cbn [valid_all] in Hv. destruct Hv as [Hv1 Hv2].
      rewrite scan_app, Hn by done. by apply IHl. }
    rewrite Hinner by (destruct (Ascii.eqb _ _); lia).
    cbn [scan].
    assert (Hclose := scan_close d lbracket ltac:(repeat constructor) Hd).
    change (closer_of lbracket) with rbracket in Hclose. by rewrite Hclose.
Qed.

Lemma scan_texts inner d :
  (1 ≤ d)%Z → valid_all inner →
  scan NDEBUG first last toks (false, false, d) (encode_all inner)
  = Some (false, false, d).
Proof.
  intros Hd. induction inner as [|n inner IH]; intros Hv; [done|].
  cbn [encode_all]. destruct Hv as [Hv1 Hv2].
  rewrite scan_app, scan_text by done. by apply IH.
Qed.

End Setting.

End Texts.

Section WholeMessages.

Variable NDEBUG : bool.

Lemma parse_loop_S fuel s token_pos :
  parse_loop NDEBUG (S fuel) s token_pos
  = match parse_step NDEBUG s token_pos with
    | Break => Done s
    | Continue s' token_pos' => parse_loop NDEBUG fuel s' token_pos'
    | AssertFailed => Aborted
    end.
Proof. reflexivity. Qed.

Lemma initialize_opener_fields c s :
  c ∈ openers →
  ∃ s', initialize NDEBUG c s = Some s'
        ∧ in_string_ s' = false ∧ depth_ s' = 1%Z
        ∧ first_char_ s' = c ∧ last_char_ s' = closer_of c
        ∧ setting (first_char_ s') (last_char_ s') (tokens_ s')
        ∧ buffer_len s' = buffer_len s
        ∧ raw_buffer_ s' = raw_buffer_ s
        ∧ serialized_objects_ s' = serialized_objects_ s.
Proof.
  intros Hin. unfold initialize, setting.
  apply elem_of_cons in Hin as [->|Hin];
    [eexists; split; [reflexivity|]; cbn; auto 10|].
  apply elem_of_cons in Hin as [->|Hin];
    [eexists; split; [reflexivity|]; cbn; auto 15|].
  by apply elem_of_nil in Hin.
Qed.

Lemma closer_of_tokens first last toks :
  setting first last toks → last ∈ toks ∧ last ≠ quote.
Proof.
  intros [(_ & -> & ->)|(_ & -> & ->)]; split; try discriminate;
    repeat constructor.
Qed.

(** A chunk that is an opener, a body over which the forward pass
    stays at depth 1, and the matching closer, fed to an empty view, is
    emitted whole and leaves the view empty. *)
Lemma feed_bracketed s (opener : ascii) (body : bytes) :
  buffer_len s = 0 →
  opener ∈ openers →
  (∀ first last toks,
     setting first last toks → first = opener →
     scan NDEBUG first last toks (false, false, 1%Z) body
     = Some (false, false, 1%Z)) →
  (Z.of_nat (length body + 2) ≤ SIZE_MAX)%Z →
  ∃ s', feed NDEBUG s (opener :: body ++ [closer_of opener]) = Done s'
        ∧ serialized_objects_ s'
          = serialized_objects_ s ++ [opener :: body ++ [closer_of opener]]
        ∧ buffer_len s' = 0.
Proof.
  intros Hempty Hop Hscan Hmax.
  set (data := opener :: body ++ [closer_of opener]).
  assert (Hlen : length data = S (S (length body))).
  { unfold data. cbn. rewrite length_app. cbn. lia. }
  unfold feed, in_place_buffer_consumed, incremental_parse.
  destruct (reserve_in_place_buffer_spec s (length data))
    as (raw0 & -> & Hroom & _ & _); [unfold well_formed; lia|].
  cbn [buffer_len raw_buffer_ set_raw_buffer].
  destruct (copy_at_view raw0 (buffer_len s) data Hroom) as [Hlen1 Hview1].
  set (raw1 := copy_at raw0 (buffer_len s) data) in *.
  assert (Hfit : length data ≤ length raw1) by lia.
  rewrite Hempty in Hview1. cbn [Nat.add] in Hview1. rewrite take_0 in Hview1.
  cbn [app] in Hview1.
  destruct (decide (length data = 0)) as [Hz|_]; [lia|].
  destruct (decide (buffer_len s = 0)) as [_|Hne]; [|done].
  assert (Hnew : take (length data) (drop (buffer_len s) raw1) = data).
  { by rewrite Hempty, drop_0. }
  rewrite Hnew.
  assert (Hfirst : find_first_of data [lbrace; lbracket] 0 = 0%Z).
  { apply (find_first_of_here data _ 0); [lia|exact Hop]. }
  rewrite Hfirst. change (0 =? npos)%Z with false.
  change (char_at data (Z.to_nat 0)) with opener. cbv iota.
  destruct (initialize_opener_fields opener (set_raw_buffer raw1 (set_raw_buffer raw0 s)) Hop)
    as (s2 & -> & Hins & Hd & Hf & Hl & Hset & Hb & Hr & Hq).
  cbn [buffer_len raw_buffer_ serialized_objects_ set_raw_buffer] in Hb, Hr, Hq.
  rewrite Hb, Hempty. cbn [Nat.add].
  set (S0 := set_buffer_len (length data) s2).
  assert (HB : buffer_ S0 = data).
  { unfold buffer_, S0. cbn [buffer_len raw_buffer_ set_buffer_len]. by rewrite Hr. }
  assert (HmaxB : (Z.of_nat (length (buffer_ S0)) ≤ SIZE_MAX)%Z) by (rewrite HB; lia).
  (* the body *)
  destruct (parse_loop_refines_scan NDEBUG (length body) S0 1 false false 1%Z)
    as (_ & k & Hk & Hloop).
  { rewrite HB. lia. }
  { exact HmaxB. }
  { rewrite HB. cbn [first_char_ last_char_ tokens_ in_string_ depth_ set_buffer_len S0].
    rewrite Hins, Hd.
    assert (take (length body) (drop 1 data) = body) as ->.
    { unfold data.
      change (drop 1 (opener :: body ++ [closer_of opener]))
        with (body ++ [closer_of opener]).
      apply take_app_length. }
    assert (Nat.odd (backslashes_before data 1) = false) as ->.
    { unfold data. cbn.
      apply elem_of_cons in Hop as [->|Hop]; [done|].
      apply elem_of_cons in Hop as [->|Hop]; [done|]. by apply elem_of_nil in Hop. }
    by apply Hscan. }
  set (S1 := set_depth 1 (set_in_string false S0)) in *.
  (* the closer *)
  assert (Hcloser : char_at (buffer_ S1) (1 + length body) = closer_of opener).
  { change (buffer_ S1) with (buffer_ S0). rewrite HB. unfold data, char_at.
    cbn [Nat.add nth]. rewrite app_nth2 by lia. by rewrite Nat.sub_diag. }
  destruct (closer_of_tokens _ _ _ Hset) as [Hltok Hlq].
  assert (Hstep1 : parse_step NDEBUG S1 (Z.of_nat (1 + length body) - 1)
                   = Continue (store_object (length data) S1) (size_t (-1))).
  { rewrite parse_step_token.
    - unfold token_action. rewrite Hcloser.
      change (last_char_ S1) with (last_char_ s2). rewrite Hl.
      change (in_string_ S1) with false. change (depth_ S1) with 1%Z.
      rewrite Hl in Hlq. apply Ascii.eqb_neq in Hlq. rewrite Hlq.
      cbn [andb]. rewrite Ascii.eqb_refl.
      change (1 - 1 =? 0)%Z with true. cbv iota. by rewrite Hlen.
    - change (buffer_ S1) with (buffer_ S0). rewrite HB. lia.
    - exact HmaxB.
    - rewrite Hcloser. change (tokens_ S1) with (tokens_ s2). by rewrite <- Hl. }
  set (S2 := store_object (length data) S1) in *.
  assert (Hstep2 : parse_step NDEBUG S2 (size_t (-1)) = Break).
  { apply parse_step_beyond. rewrite size_t_minus_one_plus_one.
    unfold S2. cbn [buffer_len store_object].
    change (buffer_len S1) with (length data). lia. }
  exists S2. split.
  - change (parse_loop NDEBUG (S (length data)) S0 (Z.of_nat 1 - 1) = Done S2).
    replace (S (length data)) with (k + S (S (length data - k - 1))) by lia.
    rewrite Hloop. rewrite parse_loop_S, Hstep1. by rewrite parse_loop_S, Hstep2.
  - split.
    2:{ unfold S2. cbn [buffer_len store_object].
        change (buffer_len S1) with (length data). lia. }
    cbn [serialized_objects_ store_object S2 S1 S0 set_depth set_in_string
         set_buffer_len raw_buffer_].
    rewrite Hq, Hr. f_equal. f_equal. rewrite resize_within by exact Hfit.
    exact Hview1.
Qed.

(** A message that arrives whole, as one chunk, at an empty view is
    emitted as it is and leaves the view empty. *)
Lemma feed_message s n :
  buffer_len s = 0 → is_message n →
  (Z.of_nat (length (encode n)) ≤ SIZE_MAX)%Z →
  ∃ s', feed NDEBUG s (encode n) = Done s'
        ∧ serialized_objects_ s' = serialized_objects_ s ++ [encode n]
        ∧ buffer_len s' = 0.
Proof.
  intros Hempty Hmsg Hmax. destruct n as [c|body|inner|inner]; try done.
  - rewrite encode_Braces in *. cbn [is_message] in Hmsg. rewrite valid_Braces in Hmsg.
    apply (feed_bracketed s lbrace (encode_all inner)); [done|repeat constructor| |].
    + intros first last toks Hset _. by apply scan_texts.
    + cbn in Hmax. rewrite length_app in Hmax. cbn in Hmax. lia.
  - rewrite encode_Brackets in *. cbn [is_message] in Hmsg. rewrite valid_Brackets in Hmsg.
    apply (feed_bracketed s lbracket (encode_all inner)); [done|repeat constructor| |].
    + intros first last toks Hset _. by apply scan_texts.
    + cbn in Hmax. rewrite length_app in Hmax. cbn in Hmax. lia.
Qed.

End WholeMessages.

Section Release.

Lemma parse_step_release s token_pos : parse_step true s token_pos ≠ AssertFailed.
Proof.
  unfold parse_step. rewrite orb_true_r.
  repeat match goal with
         | |- context [if ?b then _ else _] => destruct b
         end; discriminate.
Qed.

Lemma parse_loop_release fuel s token_pos : parse_loop true fuel s token_pos ≠ Aborted.
Proof.
  revert s token_pos. induction fuel as [|fuel IH]; intros s token_pos; [done|].
  cbn [parse_loop]. pose proof (parse_step_release s token_pos).
  destruct (parse_step true s token_pos); [done|apply IH|done].
Qed.

Lemma feed_release s data : feed true s data ≠ Aborted.
Proof.
  unfold feed, in_place_buffer_consumed, incremental_parse.
  destruct (decide _); [done|]. destruct (decide _); [|apply parse_loop_release].
  destruct (_ =? npos)%Z; [done|].
  unfold initialize. rewrite orb_true_r.
  destruct (Ascii.eqb _ _); apply parse_loop_release.
Qed.

Lemma feed_nil NDEBUG s : feed NDEBUG s [] = Done s.
Proof.
  unfold feed, in_place_buffer_consumed, reserve_in_place_buffer.
  cbn [length]. destruct (decide (0 ≤ in_place_buffer_capacity s)) as [_|H]; [|lia].
  destruct (decide (0 = 0)); [|done]. f_equal.
  unfold copy_at. cbn [length app]. rewrite Nat.add_0_r, take_drop. by destruct s.
Qed.

End Release.

(** * Further properties of the framer: statements *)

(** X1.  [feed] always returns: the [while (true)] loop of
    [incremental_parse] ends, because every iteration moves the search
    forward or shortens the view.  It returns normally, or, in a build
    with assertions, by the failure of one. *)
Theorem feed_always_returns (NDEBUG : bool) (s : incremental_buffers) (data : bytes) :
  (Z.of_nat (buffer_len s + length data) ≤ SIZE_MAX)%Z →
  (∃ s', feed NDEBUG s data = Done s')
  ∨ (NDEBUG = false ∧ feed NDEBUG s data = Aborted).
Proof.
  intros Hmax. pose proof (feed_total NDEBUG s data Hmax) as Htot.
  destruct (feed NDEBUG s data) as [s'| |] eqn:E; [by left; eexists| |done].
  right. split; [|done]. destruct NDEBUG; [|done].
  by apply feed_release in E.
Qed.

Lemma feed_always_returns_witness :
  (∃ s', feed false in_braces_string [quote; rbrace] = Done s')
  ∨ (false = false ∧ feed false in_braces_string [quote; rbrace] = Aborted).
Proof.
  apply (feed_always_returns false in_braces_string [quote; rbrace]).
  unfold SIZE_MAX. cbn. lia.
Defined.

(** X2.  [feed] neither loses, invents nor reorders bytes, and keeps
    the scanner's invariant.  Unless the chunk is dropped (an empty view
    and no opener in the chunk), the buffers it emits followed by the
    view it leaves are exactly the old view followed by the chunk; and
    every buffer it emits ends with a closing brace or bracket. *)
Theorem feed_conserves_bytes
    (NDEBUG : bool) (s : incremental_buffers) (data : bytes) (s' : incremental_buffers) :
  scanner_inv s →
  (Z.of_nat (buffer_len s + length data) ≤ SIZE_MAX)%Z →
  feed NDEBUG s data = Done s' →
  scanner_inv s'
  ∧ ∃ new, serialized_objects_ s' = serialized_objects_ s ++ new
           ∧ Forall (λ o, ∃ body, o = body ++ [rbrace] ∨ o = body ++ [rbracket]) new
           ∧ ((buffer_len s = 0 ∧ Forall (λ c, c ∉ openers) data
               ∧ new = [] ∧ buffer_len s' = 0)
              ∨ concat new ++ buffer_ s' = buffer_ s ++ data).
Proof. apply feed_conserves. Qed.

Lemma scanner_inv_empty : scanner_inv empty.
Proof. split; [unfold well_formed; cbn; lia|]. intros H. by cbn in H. Qed.

Lemma feed_conserves_bytes_witness :
  ∃ s', feed false empty (text "{}{[") = Done s'
        ∧ scanner_inv s'
        ∧ ∃ new, serialized_objects_ s' = serialized_objects_ empty ++ new
                 ∧ Forall (λ o, ∃ body, o = body ++ [rbrace] ∨ o = body ++ [rbracket]) new
                 ∧ ((buffer_len empty = 0 ∧ Forall (λ c, c ∉ openers) (text "{}{[")
                     ∧ new = [] ∧ buffer_len s' = 0)
                    ∨ concat new ++ buffer_ s' = buffer_ empty ++ text "{}{[").
Proof.
  eexists. split; [vm_compute; reflexivity|].
  apply (feed_conserves_bytes false empty (text "{}{[")).
  - exact scanner_inv_empty.
  - unfold SIZE_MAX. cbn. lia.
  - vm_compute. reflexivity.
Defined.

(** X3.  The two chunks that [feed] ignores.  An empty chunk changes
    nothing at all.  A chunk without [{] and [[] that arrives while the
    view is empty changes nothing but the spare storage: the view stays
    empty, the queue and the scanner's members are as before. *)
Theorem ignored_chunks (NDEBUG : bool) (s : incremental_buffers) (data : bytes) :
  feed NDEBUG s [] = Done s
  ∧ (buffer_len s = 0 →
     Forall (λ c, c ∉ openers) data →
     ∃ raw, feed NDEBUG s data = Done (set_raw_buffer raw s)).
Proof.
  split; [apply feed_nil|]. apply chunk_without_opener_is_dropped.
Qed.

Lemma ignored_chunks_witness :
  ∃ raw, feed false empty [newline; newline] = Done (set_raw_buffer raw empty).
Proof.
  apply (ignored_chunks false empty [newline; newline]); [reflexivity|].
  repeat constructor; intros H;
    repeat (apply elem_of_cons in H as [H|H]; [discriminate H|]);
    by apply elem_of_nil in H.
Defined.

(** X4.  A chunk of one byte appended to a view that is not empty is
    never looked at: the search starts one position behind it, so only
    the length of the view changes, whatever the byte is.  Hence a
    stream that arrives one byte per chunk never yields a buffer. *)
Theorem one_byte_chunks_are_never_scanned
    (NDEBUG : bool) (s : incremental_buffers) :
  (∀ c, buffer_len s ≠ 0 →
        (Z.of_nat (buffer_len s) < SIZE_MAX)%Z →
        ∃ raw, feed NDEBUG s [c]
               = Done (set_buffer_len (buffer_len s + 1) (set_raw_buffer raw s)))
  ∧ (∀ stream : bytes,
       (Z.of_nat (buffer_len s + length stream) < SIZE_MAX)%Z →
       ∃ s', feed_all NDEBUG s (map (λ c, [c]) stream) = Done s'
             ∧ serialized_objects_ s' = serialized_objects_ s).
Proof.
  split.
  - intros c. apply single_byte_is_not_scanned.
  - intros stream Hmax.
    destruct (byte_by_byte_emits_nothing NDEBUG stream s Hmax) as (s' & H & Hq & _).
    by exists s'.
Qed.

Lemma one_byte_chunks_are_never_scanned_witness :
  (∃ raw, feed false in_braces_string [rbrace]
          = Done (set_buffer_len 6 (set_raw_buffer raw in_braces_string)))
  ∧ ∃ s', feed_all false empty (map (λ c, [c]) (text "{}[]")) = Done s'
          ∧ serialized_objects_ s' = [].
Proof.
  split.
  - apply (one_byte_chunks_are_never_scanned false in_braces_string).
    + discriminate.
    + unfold SIZE_MAX. cbn. lia.
  - apply (one_byte_chunks_are_never_scanned false empty).
    unfold SIZE_MAX. cbn. lia.
Defined.

(** X5.  In a build with assertions the assertion of the loop fails at
    exactly one kind of token: a quote with an odd number of backslashes
    in front of it, met outside a string.  In a build without
    assertions that quote is counted as an opener: the depth goes up by
    one. *)
Theorem assertion_fails_at_an_escaped_quote_outside_a_string
    (s : incremental_buffers) (token_pos : Z) :
  initialized s →
  let p := find_first_of (buffer_ s) (tokens_ s) (size_t (token_pos + 1)) in
  let at_escaped_quote :=
    p ≠ npos ∧ in_string_ s = false
    ∧ char_at (buffer_ s) (Z.to_nat p) = quote
    ∧ Nat.Odd (backslashes_before (buffer_ s) (Z.to_nat p)) in
  (parse_step false s token_pos = AssertFailed ↔ at_escaped_quote)
  ∧ (at_escaped_quote →
     parse_step true s token_pos = Continue (set_depth (depth_ s + 1) s) p).
Proof.
  intros Hinit p at_escaped_quote. subst at_escaped_quote.
  assert (Hq : ∀ NDEBUG,
    p ≠ npos → in_string_ s = false →
    char_at (buffer_ s) (Z.to_nat p) = quote →
    Nat.Odd (backslashes_before (buffer_ s) (Z.to_nat p)) →
    parse_step NDEBUG s token_pos
    = if NDEBUG then Continue (set_depth (depth_ s + 1) s) p else AssertFailed).
  { intros NDEBUG Hn Hs Hc Ho. unfold parse_step. fold p.
    apply Z.eqb_neq in Hn. rewrite Hn, Hc, Hs.
    rewrite (is_escaped_Odd s _ Ho). cbn [negb andb Ascii.eqb].
    rewrite andb_false_r.
    destruct Hinit as [(-> & -> & _)|(-> & -> & _)]; by destruct NDEBUG. }
  split; [split|].
  - unfold parse_step. fold p.
    pose proof (size_t_range (token_pos + 1)) as Hr.
    destruct (find_first_of_cases (buffer_ s) (tokens_ s) (size_t (token_pos + 1)))
      as [[Hp _]|(k & Hp & _ & Hin & _)]; [lia| |]; fold p in Hp.
    { rewrite Hp, Z.eqb_refl. discriminate. }
    destruct (p =? npos)%Z eqn:E; [discriminate|]. apply Z.eqb_neq in E.
    replace (Z.to_nat (size_t (token_pos + 1)) + k) with (Z.to_nat p) in Hin by lia.
    destruct (Ascii.eqb _ quote && _) eqn:Hquote; [discriminate|].
    destruct (in_string_ s) eqn:Hs; [discriminate|].
    destruct (Ascii.eqb _ (last_char_ s)) eqn:Hlast.
    { destruct (_ =? 0)%Z; discriminate. }
    destruct (Ascii.eqb _ (first_char_ s)) eqn:Hfirst; [discriminate|].
    intros _. apply Ascii.eqb_neq in Hlast, Hfirst.
    assert (Htok : char_at (buffer_ s) (Z.to_nat p) = quote).
    { destruct Hinit as [(Hf & Hl & Ht)|(Hf & Hl & Ht)]; rewrite Ht in Hin;
        repeat (apply elem_of_cons in Hin as [Hin|Hin]; [congruence|]);
        by apply elem_of_nil in Hin. }
    repeat split; try done.
    rewrite Htok in Hquote. cbn in Hquote. apply negb_false_iff in Hquote.
    rewrite is_escaped_odd in Hquote. by apply Nat.odd_spec.
  - intros (Hn & Hs & Hc & Ho). by rewrite (Hq false).
  - intros (Hn & Hs & Hc & Ho). by rewrite (Hq true).
Qed.

Lemma assertion_fails_at_an_escaped_quote_outside_a_string_witness :
  parse_step false (before_escaped_quote false) 1 = AssertFailed
  ∧ parse_step true (before_escaped_quote false) 1
    = Continue (set_depth 2 (before_escaped_quote false)) 3.
Proof.
  assert (Hinit : initialized (before_escaped_quote false)) by (left; done).
  pose proof (assertion_fails_at_an_escaped_quote_outside_a_string
                (before_escaped_quote false) 1 Hinit) as [Hiff Hrel].
  assert (Hat : (3 ≠ npos)%Z ∧ false = false
                ∧ char_at (buffer_ (before_escaped_quote false)) 3 = quote
                ∧ Nat.Odd (backslashes_before (buffer_ (before_escaped_quote false)) 3)).
  { split; [discriminate|]. split; [reflexivity|]. split; [reflexivity|].
    exists 0. reflexivity. }
  split; [exact (proj2 Hiff Hat)|exact (Hrel Hat)].
Defined.

(** X6.  Over a stretch of the view on which it stores no object and
    fails no assertion, the loop, which jumps from token to token and
    walks backwards over backslashes at each quote, computes what a
    single forward pass computes that reads every byte once and carries
    the parity of the backslashes just read; and it takes at most one
    iteration per byte. *)
Theorem loop_agrees_with_forward_pass
    (NDEBUG : bool) (s : incremental_buffers) (from n : nat)
    (esc' ins' : bool) (d' : Z) :
  from + n ≤ length (buffer_ s) →
  (Z.of_nat (length (buffer_ s)) ≤ SIZE_MAX)%Z →
  scan NDEBUG (first_char_ s) (last_char_ s) (tokens_ s)
    (Nat.odd (backslashes_before (buffer_ s) from), in_string_ s, depth_ s)
    (take n (drop from (buffer_ s))) = Some (esc', ins', d') →
  esc' = Nat.odd (backslashes_before (buffer_ s) (from + n))
  ∧ ∃ k, k ≤ n ∧ ∀ fuel,
      parse_loop NDEBUG (k + fuel) s (Z.of_nat from - 1)
      = parse_loop NDEBUG fuel (set_depth d' (set_in_string ins' s))
          (Z.of_nat (from + n) - 1).
Proof. apply parse_loop_refines_scan. Qed.

Lemma loop_agrees_with_forward_pass_witness :
  ∃ k, k ≤ 2 ∧ ∀ fuel,
    parse_loop false (k + fuel) in_braces_string 1
    = parse_loop false fuel (set_depth 1 (set_in_string false in_braces_string)) 3.
Proof.
  apply (loop_agrees_with_forward_pass false in_braces_string 2 2 false false 1%Z).
  - cbn. lia.
  - unfold SIZE_MAX. cbn. lia.
  - reflexivity.
Defined.


Ltac not_in_list :=
  let H := fresh in
  intros H;
  repeat (apply elem_of_cons in H as [H|H]; [discriminate H|]);
  by apply elem_of_nil in H.


Section AlignedStreams.

Variable NDEBUG : bool.

Lemma feed_all_chunks (chunks : list chunk) :
  ∀ s, buffer_len s = 0 →
    Forall chunk_ok chunks →
    Forall (λ ch, (Z.of_nat (length (chunk_bytes ch)) ≤ SIZE_MAX)%Z) chunks →
    ∃ s', feed_all NDEBUG s (map chunk_bytes chunks) = Done s'
          ∧ serialized_objects_ s' = serialized_objects_ s ++ messages_of chunks
          ∧ buffer_len s' = 0.
Proof.
  induction chunks as [|ch chunks IH]; intros s Hempty Hok Hmax.
  { exists s. cbn. by rewrite app_nil_r. }
  apply Forall_cons in Hok as [Hok1 Hok]. apply Forall_cons in Hmax as [Hmax1 Hmax].
  cbn [map feed_all]. destruct ch as [n|ws]; cbn [chunk_bytes chunk_ok] in *.
  - destruct (feed_message NDEBUG s n Hempty Hok1 Hmax1) as (s1 & -> & Hq1 & Hb1).
    destruct (IH s1 Hb1 Hok Hmax) as (s' & -> & Hq & Hb).
    exists s'. split; [done|]. split; [|done].
    rewrite Hq, Hq1. unfold messages_of. cbn [omap]. by rewrite <- app_assoc.
  - destruct (chunk_without_opener_is_dropped NDEBUG s ws Hempty Hok1) as (raw & ->).
    destruct (IH (set_raw_buffer raw s) Hempty Hok Hmax) as (s' & -> & Hq & Hb).
    exists s'. split; [done|]. split; [|done]. by rewrite Hq.
Qed.

End AlignedStreams.



Section QueueFrame.

Variable NDEBUG : bool.

(** The objects pushed between two states of the framer. *)
Definition pushed (s s' : incremental_buffers) : list bytes :=
  drop (length (serialized_objects_ s)) (serialized_objects_ s').

Definition with_queue (q : list bytes) (s : incremental_buffers) (o : outcome) : outcome :=
  match o with
  | Done s' => Done (set_queue (q ++ pushed s s') s')
  | Aborted => Aborted
  | OutOfFuel => OutOfFuel
  end.

Lemma pushed_refl s : pushed s s = [].
Proof. unfold pushed. apply drop_all. Qed.

Lemma parse_step_queue q s token_pos :
  parse_step NDEBUG (set_queue q s) token_pos
  = match parse_step NDEBUG s token_pos with
    | Continue s' tp' => Continue (set_queue (q ++ pushed s s') s') tp'
    | Break => Break
    | AssertFailed => AssertFailed
    end.
Proof.
  unfold parse_step.
  change (buffer_ (set_queue q s)) with (buffer_ s).
  change (tokens_ (set_queue q s)) with (tokens_ s).
  change (is_escaped (set_queue q s)) with (is_escaped s).
  cbn [in_string_ last_char_ first_char_ depth_ set_queue].
  repeat match goal with
         | |- context [if ?b then _ else _] => destruct b
         end; try reflexivity; unfold pushed;
    cbn [serialized_objects_ set_in_string set_depth store_object];
    rewrite ?drop_all, ?drop_app_length, ?app_nil_r; reflexivity.
Qed.

Lemma pushed_trans s s1 s' new1 new :
  serialized_objects_ s1 = serialized_objects_ s ++ new1 →
  serialized_objects_ s' = serialized_objects_ s1 ++ new →
  pushed s s1 ++ pushed s1 s' = pushed s s'.
Proof.
  unfold pushed. intros H1 H2. rewrite H2, H1.
  rewrite !drop_app_length. rewrite <- app_assoc. by rewrite drop_app_length.
Qed.

Lemma parse_loop_queue fuel :
  ∀ q s token_pos,
    parse_loop NDEBUG fuel (set_queue q s) token_pos
    = with_queue q s (parse_loop NDEBUG fuel s token_pos).
Proof.
  induction fuel as [|fuel IH]; intros q s token_pos; [done|].
  cbn [parse_loop]. rewrite parse_step_queue.
  destruct (parse_step NDEBUG s token_pos) as [|s1 tp1|] eqn:E; [| |done].
  - cbn [with_queue]. by rewrite pushed_refl, app_nil_r.
  - rewrite IH.
    destruct (parse_loop NDEBUG fuel s1 tp1) as [s'| |] eqn:El; [|done|done].
    cbn [with_queue]. do 2 f_equal. rewrite <- app_assoc. f_equal.
    apply parse_loop_appends in El as [new Hnew].
    apply parse_step_appends in E as [E|[object E]].
    + apply (pushed_trans s s1 s' [] new); [by rewrite app_nil_r|done].
    + by apply (pushed_trans s s1 s' [object] new).
Qed.

Lemma with_queue_same q a b o :
  serialized_objects_ a = serialized_objects_ b →
  with_queue q a o = with_queue q b o.
Proof. intros H. destruct o; [|done|done]. cbn. unfold pushed. by rewrite H. Qed.

Lemma with_queue_done q s : Done (set_queue q s) = with_queue q s (Done s).
Proof. cbn. by rewrite pushed_refl, app_nil_r. Qed.

Lemma start_queue q s n :
  parse_loop NDEBUG (S (buffer_len (set_buffer_len n (set_queue q s))))
    (set_buffer_len n (set_queue q s)) (Z.of_nat (buffer_len (set_queue q s)))
  = with_queue q s
      (parse_loop NDEBUG (S (buffer_len (set_buffer_len n s)))
         (set_buffer_len n s) (Z.of_nat (buffer_len s))).
Proof.
  change (set_buffer_len n (set_queue q s)) with (set_queue q (set_buffer_len n s)).
  change (buffer_len (set_queue q (set_buffer_len n s)))
    with (buffer_len (set_buffer_len n s)).
  change (buffer_len (set_queue q s)) with (buffer_len s).
  rewrite parse_loop_queue. by apply with_queue_same.
Qed.

Lemma incremental_parse_queue q s n :
  incremental_parse NDEBUG (set_queue q s) n
  = with_queue q s (incremental_parse NDEBUG s n).
Proof.
  unfold incremental_parse.
  change (raw_buffer_ (set_queue q s)) with (raw_buffer_ s).
  change (buffer_len (set_queue q s)) with (buffer_len s) at 1 2.
  destruct (decide (buffer_len s = 0)); [|apply start_queue].
  destruct (_ =? npos)%Z; [apply with_queue_done|].
  set (c := char_at _ _). unfold initialize.
  destruct (Ascii.eqb c lbrace).
  - match goal with
    | |- _ = with_queue q s (parse_loop _ _ (set_buffer_len _ ?x) _) =>
        rewrite <- (with_queue_same q x s) by done; apply (start_queue q x)
    end.
  - destruct (Ascii.eqb c lbracket || NDEBUG); [|done].
    match goal with
    | |- _ = with_queue q s (parse_loop _ _ (set_buffer_len _ ?x) _) =>
        rewrite <- (with_queue_same q x s) by done; apply (start_queue q x)
    end.
Qed.

(** [feed] reads the queue nowhere: with another queue in place it does
    the same and pushes the same objects. *)
Lemma feed_queue q s data :
  feed NDEBUG (set_queue q s) data = with_queue q s (feed NDEBUG s data).
Proof.
  unfold feed, in_place_buffer_consumed.
  assert (Hres : reserve_in_place_buffer (set_queue q s) (length data)
                 = set_queue q (reserve_in_place_buffer s (length data))).
  { unfold reserve_in_place_buffer.
    change (in_place_buffer_capacity (set_queue q s)) with (in_place_buffer_capacity s).
    by destruct (decide _). }
  rewrite Hres. set (s0 := reserve_in_place_buffer s (length data)).
  assert (Hq0 : serialized_objects_ s0 = serialized_objects_ s).
  { unfold s0, reserve_in_place_buffer. by destruct (decide _). }
  change (raw_buffer_ (set_queue q s0)) with (raw_buffer_ s0).
  change (buffer_len (set_queue q s0)) with (buffer_len s0).
  set (raw1 := copy_at _ _ _).
  change (set_raw_buffer raw1 (set_queue q s0)) with (set_queue q (set_raw_buffer raw1 s0)).
  rewrite <- (with_queue_same q (set_raw_buffer raw1 s0) s) by done.
  destruct (decide (length data = 0)); [apply with_queue_done|].
  apply incremental_parse_queue.
Qed.

End QueueFrame.

(** X11.  Taking a buffer off the queue and feeding a chunk commute:
    the consumer gets the same buffer, and the framer ends in the same
    state, whether [get_parsed_buffer] is called before the chunk is
    fed or after. *)
Theorem get_parsed_buffer_commutes_with_feed
    (NDEBUG : bool) (s : incremental_buffers) (data : bytes)
    (s' : incremental_buffers) (buffer : bytes) (rest : list bytes) :
  serialized_objects_ s = buffer :: rest →
  feed NDEBUG s data = Done s' →
  (get_parsed_buffer s).1 = Some buffer
  ∧ (get_parsed_buffer s').1 = Some buffer
  ∧ feed NDEBUG (get_parsed_buffer s).2 data = Done (get_parsed_buffer s').2.
Proof.
  intros Hq Hfeed.
  destruct (feed_appends NDEBUG s data s' Hfeed) as [new Hnew].
  rewrite Hq in Hnew. cbn [app] in Hnew.
  unfold get_parsed_buffer. rewrite Hq, Hnew. cbn [fst snd].
  split; [done|]. split; [done|].
  change (feed NDEBUG (set_queue rest s) data = Done (set_queue (rest ++ new) s')).
  rewrite feed_queue, Hfeed. cbn [with_queue]. do 3 f_equal.
  unfold pushed. rewrite Hq, Hnew.
  change (buffer :: rest ++ new) with ((buffer :: rest) ++ new).
  apply drop_app_length.
Qed.

Lemma get_parsed_buffer_commutes_with_feed_witness :
  ∃ s s', feed false empty (text "{}{") = Done s
          ∧ feed false s (text "x}") = Done s'
          ∧ (get_parsed_buffer s).1 = Some (text "{}")
          ∧ (get_parsed_buffer s').1 = Some (text "{}")
          ∧ feed false (get_parsed_buffer s).2 (text "x}") = Done (get_parsed_buffer s').2.
Proof.
  eexists _, _. split; [vm_compute; reflexivity|]. split; [vm_compute; reflexivity|].
  eapply (get_parsed_buffer_commutes_with_feed false _ (text "x}") _ (text "{}") []).
  - reflexivity.
  - vm_compute. reflexivity.
Defined.

(** X12.  [reserve_in_place_buffer(n)] leaves room for at least [n]
    bytes behind the view, never shrinks the storage, and changes
    neither the view nor the queue; when the room is already there it
    changes nothing at all. *)
Theorem reserve_in_place_buffer_makes_room (s : incremental_buffers) (n : nat) :
  well_formed s →
  n ≤ in_place_buffer_capacity (reserve_in_place_buffer s n)
  ∧ well_formed (reserve_in_place_buffer s n)
  ∧ length (raw_buffer_ s) ≤ length (raw_buffer_ (reserve_in_place_buffer s n))
  ∧ buffer_ (reserve_in_place_buffer s n) = buffer_ s
  ∧ serialized_objects_ (reserve_in_place_buffer s n) = serialized_objects_ s
  ∧ (n ≤ in_place_buffer_capacity s → reserve_in_place_buffer s n = s).
Proof.
  intros Hwf.
  destruct (reserve_in_place_buffer_spec s n Hwf) as (raw & Hr & Hroom & Hview & Hsame).
  assert (Hlen : length (raw_buffer_ s) ≤ length raw).
  { destruct (decide (n ≤ in_place_buffer_capacity s)) as [H|H].
    - by rewrite (Hsame H).
    - unfold in_place_buffer_capacity in H. lia. }
  rewrite Hr. unfold in_place_buffer_capacity, well_formed, buffer_.
  cbn [raw_buffer_ buffer_len serialized_objects_ set_raw_buffer].
  repeat split; try done; try lia.
  intros H. rewrite (Hsame H). by destruct s.
Qed.

Lemma reserve_in_place_buffer_makes_room_witness :
  4096 ≤ in_place_buffer_capacity (reserve_in_place_buffer in_braces_string 4096)
  ∧ buffer_ (reserve_in_place_buffer in_braces_string 4096) = buffer_ in_braces_string.
Proof.
  destruct (reserve_in_place_buffer_makes_room in_braces_string 4096)
    as (Hroom & _ & _ & Hview & _).
  - unfold well_formed. cbn. lia.
  - split; [exact Hroom|exact Hview].
Defined.

(** * Further properties of the client *)

(** X13.  A response that is not an array, or not of four elements, or
    whose first element is an integer other than 1, makes [dispatch]
    close the connection (cancel, shutdown, close on the socket) and
    nothing else: the call table is as before and no completion is
    called. *)
Theorem malformed_response_closes_the_connection
    (resp : object) (ec : error_code) (c : client) :
  match resp with
  | ARRAY ptr =>
      length ptr ≠ 4
      ∨ ∃ type, as_int (nth 0 ptr NIL) = Some type ∧ type ≠ rpc_tag response
  | _ => True
  end →
  verify_reponse resp = Some false
  ∧ dispatch resp ec c = Ok (close_connection c)
  ∧ pending_ (close_connection c) = pending_ c
  ∧ effects_since c (close_connection c) = [SocketCancel; SocketShutdown; SocketClose]
  ∧ invocations (effects_since c (close_connection c)) = [].
Proof.
  intros H.
  assert (Hv : verify_reponse resp = Some false).
  { destruct resp as [| | | | | |ptr|]; try reflexivity. cbn.
    destruct (decide (length ptr = 4)) as [Hlen|Hlen]; [|done].
    destruct H as [H|(type & -> & Hne)]; [done|].
    f_equal. by apply Z.eqb_neq. }
  split; [done|]. unfold dispatch. rewrite Hv. split; [done|]. split; [done|].
  unfold close_connection. by rewrite effects_since_emit.
Qed.

Lemma malformed_response_closes_the_connection_witness :
  dispatch (ARRAY [POSITIVE_INTEGER 0; POSITIVE_INTEGER 0; STR "f"; ARRAY []])
    (system_error 0) blocked_call = Ok (close_connection blocked_call)
  ∧ dispatch (ARRAY [POSITIVE_INTEGER 1; POSITIVE_INTEGER 0; NIL])
      (system_error 0) blocked_call = Ok (close_connection blocked_call)
  ∧ pending_ (close_connection blocked_call) !! 0%Z = Some (7, {| waiting := true |}).
Proof.
  destruct (malformed_response_closes_the_connection
              (ARRAY [POSITIVE_INTEGER 0; POSITIVE_INTEGER 0; STR "f"; ARRAY []])
              (system_error 0) blocked_call) as (_ & H1 & Hp & _).
  { right. exists 0%Z. split; [reflexivity|discriminate]. }
  destruct (malformed_response_closes_the_connection
              (ARRAY [POSITIVE_INTEGER 1; POSITIVE_INTEGER 0; NIL])
              (system_error 0) blocked_call) as (_ & H2 & _).
  { left. discriminate. }
  split; [exact H1|]. split; [exact H2|]. rewrite Hp. exact blocked_call_pending.
Defined.
